(** * omp_offload_mc.c: adaptive Monte Carlo with batched OpenMP workers

    A shallow embedding of [src/threaded_mc/omp_offload_mc.c] and the
    properties of its convergence test, its argument processing and its
    parallel accumulation loop.

    Conventions of the embedding.
    - [double] is IEEE 754 binary64 with round-to-nearest-even, every
      operation rounded on its own (no fused multiply-add, no wider
      intermediate results): Rocq's primitive [float], whose operations the
      kernel evaluates and whose meaning is given by [SpecFloat] through
      [Prim2SF].
    - [long] is a 64-bit signed integer and [int] a 32-bit one, carried as
      [Z].  Signed overflow is undefined behaviour in C: the one addition
      on a [long] ([all_ntrials += tnbatch]) is defined only while the sum
      fits, and the model has no step where it does not.
    - A C truth value ([int] 0 or 1 produced by [<], [>] and [||]) is a
      [bool].
    - The OpenMP team is a list of threads, indexed by thread number, each
      holding its [private] variables; the [shared] variables are one
      record.  A schedule (a list of thread numbers) resolves the
      interleaving; the unnamed [critical] region is one atomic step.  The
      stores to the shared [nthreads] and [tnbatch] that every thread makes
      outside a critical region (lines 153 and 158) write the same value
      each time: the one to [tnbatch] is taken as atomic like the other
      steps, and [nthreads], which is only printed, is not carried.
    - The Mersenne twister of [mt19937p.h] is not part of the file: a
      thread's generator is the sequence of deviates it yields for the seed
      it was given, [deviates tid : nat -> float], and a cursor. *)

From Stdlib Require Import ZArith Floats Bool Ascii String Lia.
From stdpp Require Import base list.

Local Open Scope Z_scope.

(* ================================================================= *)
(** * Part I: the program *)
(* ================================================================= *)

(** ** Scalar types *)

Definition LONG_MAX : Z := 2 ^ 63 - 1.
Definition LONG_MIN : Z := - 2 ^ 63.

Definition in_long (z : Z) : bool := (LONG_MIN <=? z) && (z <=? LONG_MAX).

(** The conversion of a [long] (or [int]) to [double]: the integer rounded
    to the nearest binary64 value, ties to even. *)
Definition of_long (z : Z) : float :=
  SF2Prim (binary_normalize prec emax z 0 false).

(** ** Parameters for the termination criterion (file-scope variables) *)

Record globals := Globals {
  rtol : float;
  maxtrials : Z;
  nbatch : Z
}.

(** [rtol = 1e-2], [maxtrials = 1000000], [nbatch = 500]. *)
Definition initial_globals : globals :=
  {| rtol := 0x1.47ae147ae147bp-7%float; maxtrials := 1000000; nbatch := 500 |}.

(** ** [is_converged] (lines 52-59)

    [ntrials] is a [double]; in [ntrials > maxtrials] the [long] is
    converted to [double] first. *)
Definition is_converged (sum_X sum_X2 ntrials rtol : float) (maxtrials : Z)
  : bool :=
  let EX := (sum_X / ntrials)%float in
  let EX2 := (sum_X2 / ntrials)%float in
  let varX := (EX2 - EX * EX)%float in
  (varX / (EX * EX) / ntrials <? rtol * rtol)%float
  || (of_long maxtrials <? ntrials)%float.

(** ** [run_trial] (lines 62-67): one deviate from the thread's generator *)

Definition run_trial (draw : nat -> float) (cursor : nat) : float * nat :=
  let X := draw cursor in (X, S cursor).

(** ** [process_args] (lines 71-113)

    [getopt] and the [ato*] conversions belong to the C library.  The
    model takes what they hand to the loop: for each call of [getopt] that
    does not return [-1], the option it returned with [optarg] already
    converted by the conversion the case applies ([atof], [atol], [atoi]),
    or ['?'] with [optopt]; and whether [optind < argc] holds afterwards. *)
Inductive getopt_ret :=
| Opt_p
| Opt_t (v : float)
| Opt_n (v : Z)
| Opt_b (v : Z)
| Opt_unknown (optopt : ascii).

(** Either [exit(status)] was called, after a message on [stderr], or the
    function returned with the globals as assigned. *)
Inductive startup :=
| Exit (status : Z) (message : string)
| Proceed (g : globals).

Definition nl : string := String (ascii_of_nat 10) EmptyString.

Definition takes_argument (c : ascii) : bool :=
  orb (Ascii.eqb c "p") (orb (Ascii.eqb c "t")
      (orb (Ascii.eqb c "n") (Ascii.eqb c "b"))).

Fixpoint process_args (g : globals) (rets : list getopt_ret)
    (nonoption_left : bool) : startup :=
  match rets with
  | [] =>
      if nonoption_left
      then Exit (-1) ("No non-option arguments allowed" ++ nl)
      else Proceed g
  | Opt_p :: rest => process_args g rest nonoption_left
  | Opt_t v :: rest =>
      let g := {| rtol := v; maxtrials := maxtrials g; nbatch := nbatch g |} in
      if (rtol g <? 0)%float
      then Exit (-1) ("rtol must be positive" ++ nl)
      else process_args g rest nonoption_left
  | Opt_n v :: rest =>
      let g := {| rtol := rtol g; maxtrials := v; nbatch := nbatch g |} in
      if maxtrials g <? 1
      then Exit (-1) ("maxtrials must be positive" ++ nl)
      else process_args g rest nonoption_left
  | Opt_b v :: rest =>
      let g := {| rtol := rtol g; maxtrials := maxtrials g; nbatch := v |} in
      if nbatch g <? 1
      then Exit (-1) ("nbatch must be positive" ++ nl)
      else process_args g rest nonoption_left
  | Opt_unknown optopt :: _ =>
      if takes_argument optopt
      then Exit (-1) ("Option -" ++ String optopt " requires argument" ++ nl)
      else Exit (-1) ("Unknown option '-" ++ String optopt "'." ++ nl)
  end.

(** The status a parent process sees: the low eight bits. *)
Definition wait_status (status : Z) : Z := Z.land status 255.

(** ** The parallel region of [main] (lines 149-188) *)

(** Where a thread stands in the region's body. *)
Inductive label :=
| AtStart    (* before lines 153-161 *)
| AtBatch    (* at the head of the do-loop body, line 165 *)
| AtMerge    (* batch done, before the critical region of line 174 *)
| Exited.    (* past [while (!done_flag)] *)

(** The [private] variables of one thread; [drawn] is the cursor of its
    generator [mt]. *)
Record thread := Thread {
  pc : label;
  done_flag : bool;
  sum_X : float;
  sum_X2 : float;
  drawn : nat
}.

(** The variables the threads share.  [tnbatch] is declared in [main]
    without an initial value and is not in the [private] list: it is shared,
    and undefined until a thread assigns it. *)
Record shared := Shared {
  all_sum_X : float;
  all_sum_X2 : float;
  all_ntrials : Z;
  tnbatch : option Z
}.

Record state := State {
  sh : shared;
  threads : list thread
}.

(** A [private] variable has no defined value on entry; every one of them is
    assigned before it is read, so the placeholders below are never seen. *)
Definition fresh_thread : thread :=
  {| pc := AtStart; done_flag := false; sum_X := 0; sum_X2 := 0; drawn := 0 |}.

(** Lines 133-135, at the start of the region with a team of [nthreads]. *)
Definition init (nthreads : nat) : state :=
  {| sh := {| all_sum_X := 0; all_sum_X2 := 0; all_ntrials := 0;
              tnbatch := None |};
     threads := replicate nthreads fresh_thread |}.

(** The call [is_converged(all_sum_X, all_sum_X2, all_ntrials, rtol,
    maxtrials)]: the [long] count is converted to the [double] parameter. *)
Definition oracle (g : globals) (a : shared) : bool :=
  is_converged (all_sum_X a) (all_sum_X2 a) (of_long (all_ntrials a))
    (rtol g) (maxtrials g).

(** Lines 158-161: [tnbatch = nbatch; ... sgenrand(seed, &mt);
    done_flag = 0]. *)
Definition enter (g : globals) (a : shared) (th : thread) : shared * thread :=
  ({| all_sum_X := all_sum_X a; all_sum_X2 := all_sum_X2 a;
      all_ntrials := all_ntrials a; tnbatch := Some (nbatch g) |},
   {| pc := AtBatch; done_flag := false; sum_X := sum_X th;
      sum_X2 := sum_X2 th; drawn := 0 |}).

(** Lines 167-171: [n] more iterations of the [for] loop. *)
Fixpoint trials (draw : nat -> float) (n : nat) (sum_X sum_X2 : float)
    (cursor : nat) : float * float * nat :=
  match n with
  | O => (sum_X, sum_X2, cursor)
  | S n' =>
      let '(X, cursor) := run_trial draw cursor in
      trials draw n' (sum_X + X)%float (sum_X2 + X * X)%float cursor
  end.

(** Lines 165-171: the batch; [t] runs from 0 while [t < tnbatch]. *)
Definition run_batch (draw : nat -> float) (a : shared) (th : thread)
  : option thread :=
  tn ← tnbatch a;
  let '(sx, sx2, cursor) := trials draw (Z.to_nat tn) 0 0 (drawn th) in
  Some {| pc := AtMerge; done_flag := done_flag th; sum_X := sx;
          sum_X2 := sx2; drawn := cursor |}.

(** Lines 174-187: the critical region, then the loop test. *)
Definition merge (g : globals) (a : shared) (th : thread)
  : option (shared * thread) :=
  tn ← tnbatch a;
  let done1 := done_flag th || oracle g a in
  let ntrials' := all_ntrials a + tn in
  if in_long ntrials' then
    let a' := {| all_sum_X := (all_sum_X a + sum_X th)%float;
                 all_sum_X2 := (all_sum_X2 a + sum_X2 th)%float;
                 all_ntrials := ntrials';
                 tnbatch := tnbatch a |} in
    let done2 := done1 || oracle g a' in
    Some (a', {| pc := if done2 then Exited else AtBatch;
                 done_flag := done2; sum_X := sum_X th;
                 sum_X2 := sum_X2 th; drawn := drawn th |})
  else None.

(** One step of thread [tid].  [None]: there is no such thread, it has left
    the loop, or the step has no defined behaviour. *)
Definition step (g : globals) (deviates : nat -> nat -> float)
    (s : state) (tid : nat) : option state :=
  th ← threads s !! tid;
  match pc th with
  | AtStart =>
      let '(a, th') := enter g (sh s) th in
      Some {| sh := a; threads := <[tid := th']> (threads s) |}
  | AtBatch =>
      th' ← run_batch (deviates tid) (sh s) th;
      Some {| sh := sh s; threads := <[tid := th']> (threads s) |}
  | AtMerge =>
      '(a, th') ← merge g (sh s) th;
      Some {| sh := a; threads := <[tid := th']> (threads s) |}
  | Exited => None
  end.

(** What a step commits to the shared totals: the thread and its local sums
    when the step is a merge, nothing otherwise. *)
Definition commit : Type := nat * (float * float).

Definition committed (s : state) (tid : nat) : list commit :=
  match threads s !! tid with
  | Some th =>
      match pc th with
      | AtMerge => [(tid, (sum_X th, sum_X2 th))]
      | _ => []
      end
  | None => []
  end.

(** A run under a schedule, with the merges it performed, oldest first. *)
Fixpoint exec (g : globals) (deviates : nat -> nat -> float)
    (sched : list nat) (s : state) : option (list commit * state) :=
  match sched with
  | [] => Some ([], s)
  | tid :: rest =>
      s' ← step g deviates s tid;
      '(log, s'') ← exec g deviates rest s';
      Some (committed s tid ++ log, s'')
  end.

Definition exited (th : thread) : bool :=
  match pc th with Exited => true | _ => false end.

Definition all_exited (s : state) : bool := forallb exited (threads s).

(** The number of batches thread [tid] has merged. *)
Definition batches_run (log : list commit) (tid : nat) : nat :=
  length (filter (λ c, c.1 = tid) log).

(** ** The rest of [main] (lines 144-145 and 192-203) *)

(** What line 200 prints besides the thread count and the elapsed time. *)
Record report := Report {
  EX : float;
  stdX : float;
  ntrials_total : Z
}.

Definition summarize (a : shared) : report :=
  let n := of_long (all_ntrials a) in
  let EX := (all_sum_X a / n)%float in
  let EX2 := (all_sum_X2 a / n)%float in
  {| EX := EX;
     stdX := PrimFloat.sqrt ((EX2 - EX * EX) / n)%float;
     ntrials_total := all_ntrials a |}.

Inductive outcome :=
| Rejected (status : Z) (message : string)  (* [exit] in [process_args] *)
| Returned (r : report)                     (* [return 0] *)
| Unfinished                                (* the schedule ends too early *)
| Undefined.                                (* the schedule has no run *)

Definition main (rets : list getopt_ret) (nonoption_left : bool)
    (nthreads : nat) (deviates : nat -> nat -> float) (sched : list nat)
  : outcome :=
  match process_args initial_globals rets nonoption_left with
  | Exit status message => Rejected status message
  | Proceed g =>
      match exec g deviates sched (init nthreads) with
      | Some (_, s) =>
          if all_exited s then Returned (summarize (sh s)) else Unfinished
      | None => Undefined
      end
  end.

(* ================================================================= *)
(** * Part II: vocabulary of the properties *)
(* ================================================================= *)

(** ** The convergence test in the words of its description *)

Definition mean (sum_X ntrials : float) : float := (sum_X / ntrials)%float.

Definition mean_of_squares (sum_X2 ntrials : float) : float :=
  (sum_X2 / ntrials)%float.

Definition variance (sum_X sum_X2 ntrials : float) : float :=
  (mean_of_squares sum_X2 ntrials
   - mean sum_X ntrials * mean sum_X ntrials)%float.

(** [variance / (mean*mean) / ntrials < relative_tolerance^2] *)
Definition relative_error_met (sum_X sum_X2 ntrials rtol : float) : bool :=
  (variance sum_X sum_X2 ntrials
   / (mean sum_X ntrials * mean sum_X ntrials) / ntrials
   <? rtol * rtol)%float.

(** [ntrials > max_trials] *)
Definition cap_exceeded (ntrials : float) (maxtrials : Z) : bool :=
  (of_long maxtrials <? ntrials)%float.

(** ** Runs of the parallel region *)

(** The running totals of a list of commits, added in the order of the
    list to a starting value. *)
Definition total_X (log : list commit) (start : float) : float :=
  fold_left (λ acc c, (acc + c.2.1)%float) log start.

Definition total_X2 (log : list commit) (start : float) : float :=
  fold_left (λ acc c, (acc + c.2.2)%float) log start.

(** [tnbatch] holds [nbatch] once any thread is past its first lines. *)
Definition tnbatch_ok (g : globals) (s : state) : Prop :=
  match tnbatch (sh s) with
  | Some v => v = nbatch g
  | None => Forall (λ th, pc th = AtStart) (threads s)
  end.

(** A thread inside its loop has not set its flag. *)
Definition looping_unset (th : thread) : Prop :=
  pc th = AtBatch \/ pc th = AtMerge -> done_flag th = false.

Definition exited_count (s : state) : nat :=
  sum_list_with (λ th, if exited th then 1 else 0)%nat (threads s).

(** Steps a thread still has before its next merge. *)
Definition rank (th : thread) : nat :=
  match pc th with
  | AtStart => 3
  | AtBatch => 2
  | AtMerge => 1
  | Exited => 0
  end.

(** A quantity every step decreases while [all_ntrials] stays under
    [maxtrials + nthreads * nbatch]. *)
Definition potential (g : globals) (nthreads : nat) (s : state) : Z :=
  Z.of_nat (sum_list_with rank (threads s))
  + 2 * (maxtrials g + Z.of_nat nthreads * nbatch g - all_ntrials (sh s)).

(** What holds of the log and the state after every run from [init]: the
    team keeps its size, the log names threads of the team, and the shared
    totals are those of the log. *)
Record accounted (g : globals) (nthreads : nat) (log : list commit)
    (s : state) : Prop := Accounted {
  acc_team : length (threads s) = nthreads;
  acc_tnbatch : tnbatch_ok g s;
  acc_unset : Forall looping_unset (threads s);
  acc_tids : Forall (λ c, (c.1 < nthreads)%nat) log;
  acc_ntrials : all_ntrials (sh s) = Z.of_nat (length log) * nbatch g;
  acc_sum_X : all_sum_X (sh s) = total_X log 0;
  acc_sum_X2 : all_sum_X2 (sh s) = total_X2 log 0
}.

(** What holds besides when the cap is below [2^53]: the count passes the
    cap by at most one batch per thread that has left its loop, and a thread
    still in its loop has merged no more than the cap allows. *)
Record capped (g : globals) (nthreads : nat) (log : list commit)
    (s : state) : Prop := Capped {
  cap_accounted : accounted g nthreads log s;
  cap_ntrials :
    all_ntrials (sh s)
    <= maxtrials g + Z.of_nat (exited_count s) * nbatch g;
  cap_batches : forall tid th,
    threads s !! tid = Some th ->
    Z.of_nat (batches_run log tid) * nbatch g
    <= maxtrials g + (if exited th then nbatch g else 0)
}.

(** The reading of the termination flag as one shared flag: once some
    thread's flag is set, a thread that reaches the end of its batch leaves
    its loop there. *)
Definition stops_at_batch_end (g : globals) (deviates : nat -> nat -> float)
    (nthreads : nat) : Prop :=
  forall sched log s i thi j thj s' thj',
    exec g deviates sched (init nthreads) = Some (log, s) ->
    threads s !! i = Some thi -> done_flag thi = true ->
    threads s !! j = Some thj -> pc thj = AtMerge ->
    step g deviates s j = Some s' ->
    threads s' !! j = Some thj' ->
    pc thj' = Exited.

(** From [s] some schedule brings every thread out of its loop. *)
Definition can_finish (g : globals) (deviates : nat -> nat -> float)
    (s : state) : Prop :=
  exists sched log s',
    exec g deviates sched s = Some (log, s') /\ all_exited s' = true.

(** ** Scenarios *)

(** [-t 1.0 -n 10 -b 5], one thread, every deviate [0.5]. *)
Definition halves_args : list getopt_ret := [Opt_t 1; Opt_n 10; Opt_b 5].
Definition halves_globals : globals :=
  {| rtol := 1; maxtrials := 10; nbatch := 5 |}.
Definition halves : nat -> nat -> float := λ _ _, 0.5%float.

(** The state after the thread's first lines and its first batch, and the
    state after its first merge. *)
Definition halves_after_batch : state :=
  {| sh := {| all_sum_X := 0; all_sum_X2 := 0; all_ntrials := 0;
              tnbatch := Some 5 |};
     threads := [{| pc := AtMerge; done_flag := false; sum_X := 2.5;
                    sum_X2 := 1.25; drawn := 5 |}] |}.

Definition halves_final : state :=
  {| sh := {| all_sum_X := 2.5; all_sum_X2 := 1.25; all_ntrials := 5;
              tnbatch := Some 5 |};
     threads := [{| pc := Exited; done_flag := true; sum_X := 2.5;
                    sum_X2 := 1.25; drawn := 5 |}] |}.

Definition halves_log : list commit := [(0%nat, (2.5, 1.25)%float)].

Definition halves_report : report :=
  {| EX := 0.5; stdX := 0; ntrials_total := 5 |}.

(** [-t 0.125 -b 1], three threads whose first deviates are [0.5], [1] and
    [0]. *)
Definition trio_globals : globals :=
  {| rtol := 0.125; maxtrials := 1000000; nbatch := 1 |}.
Definition trio (tid : nat) : nat -> float :=
  λ _, match tid with O => 0.5 | S O => 1 | _ => 0 end%float.

(** Each thread runs its first lines and its batch; then threads 0 and 1
    merge, in this order. *)
Definition trio_schedule : list nat := [0; 1; 2; 0; 1; 2; 0; 1]%nat.

(** The state that schedule leads to, in which thread 2 is about to merge,
    and the state after thread 2 has merged. *)
Definition trio_before_third_merge : state :=
  {| sh := {| all_sum_X := 1.5; all_sum_X2 := 1.25; all_ntrials := 2;
              tnbatch := Some 1 |};
     threads := [{| pc := Exited; done_flag := true; sum_X := 0.5;
                    sum_X2 := 0.25; drawn := 1 |};
                 {| pc := Exited; done_flag := true; sum_X := 1;
                    sum_X2 := 1; drawn := 1 |};
                 {| pc := AtMerge; done_flag := false; sum_X := 0;
                    sum_X2 := 0; drawn := 1 |}] |}.

Definition trio_after_third_merge : state :=
  {| sh := {| all_sum_X := 1.5; all_sum_X2 := 1.25; all_ntrials := 3;
              tnbatch := Some 1 |};
     threads := [{| pc := Exited; done_flag := true; sum_X := 0.5;
                    sum_X2 := 0.25; drawn := 1 |};
                 {| pc := Exited; done_flag := true; sum_X := 1;
                    sum_X2 := 1; drawn := 1 |};
                 {| pc := AtBatch; done_flag := false; sum_X := 0;
                    sum_X2 := 0; drawn := 1 |}] |}.

(** [-t 0]. *)
Definition zero_tolerance_globals : globals :=
  {| rtol := 0; maxtrials := 1000000; nbatch := 500 |}.

(** [-n 9223372036854775807], every deviate [0]. *)
Definition uncapped_globals : globals :=
  {| rtol := rtol initial_globals; maxtrials := LONG_MAX; nbatch := 500 |}.
Definition zeros : nat -> nat -> float := λ _ _, 0%float.

(** ** Further vocabulary *)

(** The assignment an option makes (lines 79, 86 and 93). *)
Definition assign (g : globals) (r : getopt_ret) : globals :=
  match r with
  | Opt_t v => {| rtol := v; maxtrials := maxtrials g; nbatch := nbatch g |}
  | Opt_n v => {| rtol := rtol g; maxtrials := v; nbatch := nbatch g |}
  | Opt_b v => {| rtol := rtol g; maxtrials := maxtrials g; nbatch := v |}
  | Opt_p | Opt_unknown _ => g
  end.

Definition is_Opt_p (r : getopt_ret) : bool :=
  match r with Opt_p => true | _ => false end.

(** The sums of the [k]-th block of [n] deviates of a generator. *)
Definition block_sums (draw : nat -> float) (n k : nat) : float * float :=
  (trials draw n 0 0 (k * n)).1.

(** What a thread's variables hold after it has merged [k] batches of [n]
    trials: where it stands, whether its flag is set, how far its generator
    has advanced, and, before a merge, the sums it is about to commit. *)
Definition thread_traced (g : globals) (deviates : nat -> nat -> float)
    (log : list commit) (tid : nat) (th : thread) : Prop :=
  let n := Z.to_nat (nbatch g) in
  let k := batches_run log tid in
  match pc th with
  | AtStart => k = 0%nat
  | AtBatch => done_flag th = false /\ drawn th = (k * n)%nat
  | AtMerge =>
      done_flag th = false /\ drawn th = (S k * n)%nat
      /\ (sum_X th, sum_X2 th) = block_sums (deviates tid) n k
  | Exited => done_flag th = true /\ (1 <= k)%nat /\ drawn th = (k * n)%nat
  end.

(** Every commit of the log holds the sums of the next block of its
    thread's deviates. *)
Definition commits_are_blocks (g : globals) (deviates : nat -> nat -> float)
    (log : list commit) : Prop :=
  forall i c,
    log !! i = Some c ->
    c.2 = block_sums (deviates c.1) (Z.to_nat (nbatch g))
            (batches_run (take i log) c.1).

Record traced (g : globals) (deviates : nat -> nat -> float)
    (nthreads : nat) (log : list commit) (s : state) : Prop := Traced {
  tr_accounted : accounted g nthreads log s;
  tr_threads : forall tid th,
    threads s !! tid = Some th -> thread_traced g deviates log tid th;
  tr_log : commits_are_blocks g deviates log
}.

(** The loop as one thread would run it alone, without the region: the
    totals after [k] batches of [nbatch] deviates of one generator, each
    batch summed from zero and then added to the totals. *)
Fixpoint sequential (g : globals) (draw : nat -> float) (k : nat) : shared :=
  match k with
  | O => {| all_sum_X := 0; all_sum_X2 := 0; all_ntrials := 0;
            tnbatch := Some (nbatch g) |}
  | S j =>
      let a := sequential g draw j in
      let sums := block_sums draw (Z.to_nat (nbatch g)) j in
      {| all_sum_X := (all_sum_X a + sums.1)%float;
         all_sum_X2 := (all_sum_X2 a + sums.2)%float;
         all_ntrials := all_ntrials a + nbatch g;
         tnbatch := tnbatch a |}
  end.

(** What holds of a run of a team of one thread: the schedule names thread
    0 only, no total before the current one passed the test, and the
    thread stands where the length of the schedule says, with the shared
    totals those of [sequential]. *)
Definition sequenced (g : globals) (draw : nat -> float) (sched : list nat)
    (log : list commit) (s : state) : Prop :=
  let n := Z.to_nat (nbatch g) in
  let k := length log in
  Forall (λ tid, tid = 0%nat) sched
  /\ Z.of_nat k * nbatch g <= LONG_MAX
  /\ (forall j, (j < k)%nat -> oracle g (sequential g draw j) = false)
  /\ exists th,
       threads s = [th]
       /\ match pc th with
          | AtStart => sched = [] /\ log = [] /\ sh s = sh (init 1)
          | AtBatch =>
              length sched = (2 * k + 1)%nat
              /\ sh s = sequential g draw k
              /\ oracle g (sh s) = false
              /\ done_flag th = false
              /\ drawn th = (k * n)%nat
          | AtMerge =>
              length sched = (2 * k + 2)%nat
              /\ sh s = sequential g draw k
              /\ oracle g (sh s) = false
              /\ done_flag th = false
              /\ drawn th = (S k * n)%nat
              /\ (sum_X th, sum_X2 th) = block_sums draw n k
          | Exited =>
              length sched = (2 * k + 1)%nat
              /\ (1 <= k)%nat
              /\ sh s = sequential g draw k
              /\ oracle g (sh s) = true
          end.

(** No option, one thread, every deviate the double nearest to [0.2]. *)
Definition fifths : nat -> nat -> float := λ _ _, 0x1.999999999999ap-3%float.

(** The totals after the thread's first merge of 500 trials, as the code
    computes them: [100.00000000000088], [19.999999999999751] and 500. *)
Definition fifths_totals : shared :=
  Eval vm_compute in
    match exec initial_globals fifths [0; 0; 0]%nat (init 1) with
    | Some (_, s) => sh s
    | None => sh (init 1)
    end.

(* ================================================================= *)
(** * Part III: properties *)
(* ================================================================= *)

(** ** Integers converted to binary64 *)

(** The number of binary digits of [p] places it between two powers of
    two. *)
Lemma digits2_pos_bounds (p : positive) :
  2 ^ (Z.pos (digits2_pos p) - 1) <= Z.pos p < 2 ^ Z.pos (digits2_pos p).
Proof.
  induction p as [p IH|p IH|]; cbn [digits2_pos]; [| |simpl; lia].
  all: rewrite Pos2Z.inj_succ, Z.pow_succ_r by lia.
  all: replace (Z.succ (Z.pos (digits2_pos p)) - 1)
         with (Z.succ (Z.pos (digits2_pos p) - 1)) by lia.
  all: rewrite Z.pow_succ_r by lia; lia.
Qed.

(** A positive number between two consecutive powers of two has that many
    digits. *)
Lemma digits2_pos_unique (p : positive) (d : Z) :
  2 ^ (d - 1) <= Z.pos p < 2 ^ d -> 1 <= d -> Z.pos (digits2_pos p) = d.
Proof.
  intros [Hlo Hhi] Hd.
  destruct (digits2_pos_bounds p) as [Hlo' Hhi'].
  destruct (Z.lt_trichotomy (Z.pos (digits2_pos p)) d) as [Hlt|[->|Hgt]];
    [|done|].
  - assert (2 ^ Z.pos (digits2_pos p) <= 2 ^ (d - 1))
      by (apply Z.pow_le_mono_r; lia). lia.
  - assert (2 ^ d <= 2 ^ (Z.pos (digits2_pos p) - 1))
      by (apply Z.pow_le_mono_r; lia). lia.
Qed.

(** Appending [k] zero bits multiplies by [2^k]. *)
Lemma iter_xO_value (p k : positive) :
  Z.pos (Pos.iter xO p k) = Z.pos p * 2 ^ Z.pos k.
Proof.
  induction k as [|k IH] using Pos.peano_ind.
  - simpl. lia.
  - rewrite Pos.iter_succ, Pos2Z.inj_succ, Z.pow_succ_r by lia.
    rewrite Pos2Z.inj_xO, IH. lia.
Qed.

(** [SpecFloat]'s iterator is the one of [Pos]. *)
Lemma iter_pos_peano {A} (f : A -> A) (k : positive) (x : A) :
  SpecFloat.iter_pos f k x = Pos.iter f x k.
Proof.
  revert x. induction k as [k IH|k IH|]; intros x; simpl;
    [|by rewrite !IH|done].
  rewrite !IH. rewrite <- !Pos.iter_swap. done.
Qed.

(** One step of the right shift halves the mantissa. *)
Lemma shr_1_m (mrs : shr_record) :
  0 <= shr_m mrs -> shr_m (shr_1 mrs) = shr_m mrs / 2.
Proof.
  destruct mrs as [m r s]. cbn [shr_m]. intros Hm.
  destruct m as [|[p|p|]|]; cbn [shr_1 shr_m]; try lia.
  - done.
  - rewrite Pos2Z.inj_xI. apply Z.div_unique with 1; lia.
  - rewrite Pos2Z.inj_xO. apply Z.div_unique with 0; lia.
  - done.
Qed.

(** [k] steps divide it by [2^k]. *)
Lemma shr_iter_m (k : positive) (mrs : shr_record) :
  0 <= shr_m mrs ->
  shr_m (SpecFloat.iter_pos shr_1 k mrs) = shr_m mrs / 2 ^ Z.pos k.
Proof.
  rewrite iter_pos_peano. intros Hm.
  induction k as [|k IH] using Pos.peano_ind.
  - simpl. rewrite shr_1_m by done. done.
  - rewrite Pos.iter_succ, Pos2Z.inj_succ, Z.pow_succ_r by lia.
    rewrite shr_1_m by (rewrite IH; apply Z.div_pos; lia).
    rewrite IH, Z.div_div by lia. f_equal. lia.
Qed.

(** Above the subnormal range the canonical exponent of a number of
    [e] digits is [e - 53]. *)
Lemma fexp64 (e : Z) : -1021 <= e -> fexp prec emax e = e - 53.
Proof. unfold fexp, SpecFloat.emin, prec, emax. lia. Qed.

(** The left alignment does nothing when the target exponent is not
    smaller, and shifts by the difference when it is. *)
Lemma shl_align_keep (p : positive) (ex ex' : Z) :
  ex <= ex' -> shl_align p ex ex' = (p, ex).
Proof. unfold shl_align. destruct (ex' - ex) eqn:E; intros; try done; lia. Qed.

Lemma shl_align_shift (p : positive) (ex ex' : Z) :
  ex' < ex -> shl_align p ex ex' = (Pos.iter xO p (Z.to_pos (ex - ex')), ex').
Proof.
  unfold shl_align. destruct (ex' - ex) as [|d|d] eqn:E; intros; try lia.
  replace (ex - ex') with (Z.pos d) by lia. done.
Qed.

(** Rounding keeps the truncated mantissa or adds one. *)
Lemma round_nearest_even_bounds (m : Z) (l : location) :
  m <= round_nearest_even m l <= m + 1.
Proof.
  destruct l as [|[]]; cbn [round_nearest_even]; try destruct (Z.even m); lia.
Qed.

(** A mantissa of 53 digits with an exponent in range is already rounded. *)
Lemma binary_round_aux_canonical (s : bool) (m : positive) (e : Z) :
  Z.pos (digits2_pos m) = 53 -> -1074 <= e <= 971 ->
  binary_round_aux prec emax s (Z.pos m) e loc_Exact = S754_finite s m e.
Proof.
  intros Hd He. unfold binary_round_aux, shr_fexp.
  cbn [Zdigits2 shr_record_of_loc]. rewrite Hd, fexp64 by lia.
  replace (53 + e - 53 - e) with 0 by lia.
  cbn [shr shr_m loc_of_shr_record round_nearest_even Zdigits2
       shr_record_of_loc].
  rewrite Hd, fexp64 by lia.
  replace (53 + e - 53 - e) with 0 by lia. cbn [shr shr_m].
  replace (e <=? emax - prec) with true; [done|].
  symmetry. apply Z.leb_le. unfold emax, prec. lia.
Qed.

(** The shape of an integer converted to binary64: up to 53 digits it is
    kept as it is, shifted to a 53-digit mantissa; beyond, the exponent is
    the number of digits dropped, one more when rounding carries into a
    54th digit. *)
Lemma binary_round_int (s : bool) (p : positive) :
  let d := Z.pos (digits2_pos p) in
  d <= 64 ->
  exists m e,
    binary_round prec emax s p 0 = S754_finite s m e
    /\ Z.pos (digits2_pos m) = 53
    /\ (d <= 53 -> e = d - 53 /\ Z.pos m = Z.pos p * 2 ^ (53 - d))
    /\ (54 <= d -> d - 53 <= e <= d - 52 /\ (e = d - 52 -> Z.pos m = 2 ^ 52)).
Proof.
  intros d Hd64. pose proof (digits2_pos_bounds p) as Hp. fold d in Hp.
  assert (1 <= d) by (unfold d; lia).
  unfold binary_round. fold d. rewrite fexp64 by lia.
  destruct (Z_le_gt_dec d 53) as [Hsmall|Hbig].
  - (* no digit is dropped *)
    destruct (Z.eq_dec d 53) as [E|NE].
    + rewrite shl_align_keep by lia.
      exists p, 0. rewrite binary_round_aux_canonical by (fold d; lia).
      repeat split; try lia. rewrite E. simpl. lia.
    + rewrite shl_align_shift by lia.
      set (k := Z.to_pos (0 - (d + 0 - 53))).
      assert (Hk : Z.pos k = 53 - d) by (unfold k; lia).
      assert (Hv : Z.pos (Pos.iter xO p k) = Z.pos p * 2 ^ (53 - d))
        by (rewrite iter_xO_value, Hk; done).
      assert (H52 : 2 ^ (d - 1) * 2 ^ (53 - d) = 2 ^ 52)
        by (rewrite <- Z.pow_add_r by lia; f_equal; lia).
      assert (H53 : 2 ^ d * 2 ^ (53 - d) = 2 ^ 53)
        by (rewrite <- Z.pow_add_r by lia; f_equal; lia).
      assert (0 < 2 ^ (53 - d)) by (apply Z.pow_pos_nonneg; lia).
      assert (Hdig : Z.pos (digits2_pos (Pos.iter xO p k)) = 53).
      { apply digits2_pos_unique; [|lia]. rewrite Hv. simpl (53 - 1). nia. }
      exists (Pos.iter xO p k), (d + 0 - 53).
      rewrite binary_round_aux_canonical by lia.
      repeat split; try lia.
  - (* [d - 53] digits are dropped, then the result is rounded *)
    rewrite shl_align_keep by lia.
    unfold binary_round_aux, shr_fexp. cbn [Zdigits2 shr_record_of_loc].
    fold d. rewrite fexp64 by lia.
    replace (d + 0 - 53 - 0) with (Z.pos (Z.to_pos (d - 53))) by lia.
    set (k := Z.to_pos (d - 53)).
    assert (Hk : Z.pos k = d - 53) by (unfold k; lia).
    cbn [shr]. set (mrs := SpecFloat.iter_pos shr_1 k _).
    assert (Hq : shr_m mrs = Z.pos p / 2 ^ Z.pos k)
      by (unfold mrs; rewrite shr_iter_m; cbn [shr_m]; [done|lia]).
    assert (0 < 2 ^ Z.pos k) by (apply Z.pow_pos_nonneg; lia).
    assert (H52 : 2 ^ 52 * 2 ^ Z.pos k = 2 ^ (d - 1))
      by (rewrite <- Z.pow_add_r by lia; f_equal; lia).
    assert (H53 : 2 ^ 53 * 2 ^ Z.pos k = 2 ^ d)
      by (rewrite <- Z.pow_add_r by lia; f_equal; lia).
    assert (Hqb : 2 ^ 52 <= shr_m mrs < 2 ^ 53).
    { rewrite Hq. split.
      - apply Z.div_le_lower_bound; lia.
      - apply Z.div_lt_upper_bound; lia. }
    pose proof (round_nearest_even_bounds (shr_m mrs) (loc_of_shr_record mrs))
      as Hr.
    set (r := round_nearest_even (shr_m mrs) (loc_of_shr_record mrs)) in *.
    destruct r as [|pr|pr] eqn:Er; try lia.
    cbn [Zdigits2 shr_record_of_loc].
    pose proof (digits2_pos_bounds pr) as Hpr.
    set (dr := Z.pos (digits2_pos pr)) in *.
    assert (Hdr : dr = 53 \/ dr = 54).
    { destruct (Z_le_gt_dec dr 52).
      - assert (2 ^ dr <= 2 ^ 52) by (apply Z.pow_le_mono_r; lia). lia.
      - destruct (Z_le_gt_dec 55 dr); [|lia].
        assert (2 ^ 54 <= 2 ^ (dr - 1)) by (apply Z.pow_le_mono_r; lia).
        assert (2 ^ 53 < 2 ^ 54) by (apply Z.pow_lt_mono_r; lia). lia. }
    rewrite fexp64 by lia.
    destruct Hdr as [E|E]; rewrite E.
    + replace (53 + (0 + Z.pos k) - 53 - (0 + Z.pos k)) with 0 by lia.
      cbn [shr shr_m].
      replace (0 + Z.pos k <=? emax - prec) with true
        by (symmetry; apply Z.leb_le; unfold emax, prec; lia).
      exists pr, (0 + Z.pos k). repeat split; try lia.
    + assert (Epr : Z.pos pr = 2 ^ 53).
      { rewrite E in Hpr. simpl (54 - 1) in Hpr. lia. }
      replace (54 + (0 + Z.pos k) - 53 - (0 + Z.pos k)) with 1 by lia.
      injection Epr as ->.
      cbn [shr SpecFloat.iter_pos shr_1 shr_m Pos.pow Pos.iter Pos.mul].
      replace (0 + Z.pos k + 1 <=? emax - prec) with true
        by (symmetry; apply Z.leb_le; unfold emax, prec; lia).
      eexists _, (0 + Z.pos k + 1). split; [reflexivity|].
      repeat split; try lia; done.
Qed.

(** A number below [2^d] has at most [d] digits. *)
Lemma digits2_pos_le (p : positive) (d : Z) :
  0 <= d -> Z.pos p < 2 ^ d -> Z.pos (digits2_pos p) <= d.
Proof.
  intros Hd Hp. pose proof (digits2_pos_bounds p) as [Hlo _].
  destruct (Z_le_gt_dec (Z.pos (digits2_pos p)) d) as [|Hgt]; [done|].
  assert (2 ^ d <= 2 ^ (Z.pos (digits2_pos p) - 1))
    by (apply Z.pow_le_mono_r; lia). lia.
Qed.

(** The conversion of an integer of at most 64 digits is a valid binary64
    number. *)
Lemma binary_round_int_valid (s : bool) (p : positive) :
  Z.pos (digits2_pos p) <= 64 ->
  valid_binary (binary_round prec emax s p 0) = true.
Proof.
  intros Hd. pose proof (digits2_pos_bounds p).
  destruct (binary_round_int s p Hd) as (m & e & -> & Hm & Hsmall & Hbig).
  assert (-52 <= e <= 12).
  { destruct (Z_le_gt_dec (Z.pos (digits2_pos p)) 53); [|lia].
    destruct Hsmall; lia. }
  cbn [SpecFloat.valid_binary]. unfold bounded, canonical_mantissa.
  rewrite Hm, fexp64 by lia. apply andb_true_iff. split.
  - apply Z.eqb_eq. lia.
  - apply Z.leb_le. unfold emax, prec. lia.
Qed.

(** The conversion of a 64-bit integer yields a valid binary64 number, so
    [Prim2SF] reads it back. *)
Lemma Prim2SF_of_long (z : Z) :
  LONG_MIN <= z <= LONG_MAX ->
  Prim2SF (of_long z) = binary_normalize prec emax z 0 false.
Proof.
  intros Hz. unfold of_long. apply Prim2SF_SF2Prim.
  unfold LONG_MIN, LONG_MAX in Hz.
  destruct z as [|p|p]; [done| |]; cbn [binary_normalize].
  all: apply binary_round_int_valid, digits2_pos_le; lia.
Qed.

(** Two positive finite numbers compare by exponent, then by mantissa. *)
Lemma SFltb_finite_pos (m1 m2 : positive) (e1 e2 : Z) :
  SFltb (S754_finite false m1 e1) (S754_finite false m2 e2)
  = (e1 <? e2) || ((e1 =? e2) && (Z.pos m1 <? Z.pos m2)).
Proof.
  unfold SFltb, SFcompare.
  destruct (Z.compare_spec e1 e2) as [->|Hlt|Hgt].
  - rewrite Z.ltb_irrefl, Z.eqb_refl. cbn [orb andb].
    unfold Z.ltb. cbn [Z.compare]. unfold Pos.compare. done.
  - apply Z.ltb_lt in Hlt as ->. done.
  - replace (e1 <? e2) with false by (symmetry; apply Z.ltb_ge; lia).
    replace (e1 =? e2) with false by (symmetry; apply Z.eqb_neq; lia). done.
Qed.

(** Below [2^53] the conversion is exact, and above it never falls below
    [2^53]: comparing the conversions compares the integers. *)
Lemma of_long_ltb (m n : Z) :
  LONG_MIN <= m < 2 ^ 53 -> 0 <= n <= LONG_MAX ->
  (of_long m <? of_long n)%float = (m <? n).
Proof.
  intros Hm Hn. rewrite ltb_spec.
  rewrite !Prim2SF_of_long by (unfold LONG_MIN, LONG_MAX in *; lia).
  unfold LONG_MIN, LONG_MAX in *.
  destruct n as [|pn|pn]; [| |lia].
  { (* n = 0 *)
    destruct m as [|pm|pm]; cbn [binary_normalize]; [done| |].
    - destruct (binary_round_int false pm) as (mm & em & -> & _);
        [apply digits2_pos_le; lia|done].
    - destruct (binary_round_int true pm) as (mm & em & -> & _);
        [apply digits2_pos_le; lia|done]. }
  cbn [binary_normalize].
  assert (Hdn : Z.pos (digits2_pos pn) <= 64) by (apply digits2_pos_le; lia).
  destruct (binary_round_int false pn Hdn)
    as (mn & en & -> & Hmn & Hnsmall & Hnbig).
  destruct m as [|pm|pm]; cbn [binary_normalize]; [done| |].
  2:{ destruct (binary_round_int true pm) as (mm & em & -> & _);
        [apply digits2_pos_le; lia|done]. }
  assert (Hdm : Z.pos (digits2_pos pm) <= 53) by (apply digits2_pos_le; lia).
  destruct (binary_round_int false pm ltac:(lia))
    as (mm & em & -> & Hmm & Hmsmall & _).
  destruct (Hmsmall Hdm) as [-> Hvm].
  rewrite SFltb_finite_pos.
  pose proof (digits2_pos_bounds pm) as Hbm.
  pose proof (digits2_pos_bounds pn) as Hbn.
  set (dm := Z.pos (digits2_pos pm)) in *.
  set (dn := Z.pos (digits2_pos pn)) in *.
  apply Bool.eq_iff_eq_true.
  rewrite orb_true_iff, andb_true_iff, !Z.ltb_lt, Z.eqb_eq.
  destruct (Z_le_gt_dec dn 53) as [Hs|Hb].
  - destruct (Hnsmall Hs) as [-> Hvn]. rewrite Hvm, Hvn.
    destruct (Z.lt_trichotomy dm dn) as [Hlt|[Heq|Hgt]].
    + assert (2 ^ dm <= 2 ^ (dn - 1)) by (apply Z.pow_le_mono_r; lia). lia.
    + rewrite Heq.
      assert (0 < 2 ^ (53 - dn)) by (apply Z.pow_pos_nonneg; lia). nia.
    + assert (2 ^ dn <= 2 ^ (dm - 1)) by (apply Z.pow_le_mono_r; lia). lia.
  - destruct Hnbig as [Hen _]; [lia|].
    assert (2 ^ dm <= 2 ^ (dn - 1)) by (apply Z.pow_le_mono_r; lia). lia.
Qed.

(** [LONG_MAX] converts to [2^63], and no [long] converts to more. *)
Lemma of_long_le_max (n : Z) :
  LONG_MIN <= n <= LONG_MAX -> (of_long LONG_MAX <? of_long n)%float = false.
Proof.
  intros Hn. rewrite ltb_spec.
  rewrite (Prim2SF_of_long n) by done.
  replace (Prim2SF (of_long LONG_MAX))
    with (S754_finite false (2 ^ 52) 11) by (vm_compute; reflexivity).
  unfold LONG_MIN, LONG_MAX in Hn.
  destruct n as [|p|p]; cbn [binary_normalize]; [done| |].
  2:{ destruct (binary_round_int true p) as (m & e & -> & _);
        [apply digits2_pos_le; lia|done]. }
  assert (Hd : Z.pos (digits2_pos p) <= 63) by (apply digits2_pos_le; lia).
  destruct (binary_round_int false p ltac:(lia))
    as (m & e & -> & Hm & Hsmall & Hbig).
  rewrite SFltb_finite_pos.
  apply orb_false_iff. split; [apply Z.ltb_ge|apply andb_false_iff].
  - destruct (Z_le_gt_dec (Z.pos (digits2_pos p)) 53);
      [destruct Hsmall|destruct Hbig]; lia.
  - destruct (Z.eq_dec 11 e) as [<-|NE]; [right|left; apply Z.eqb_neq; lia].
    apply Z.ltb_ge.
    destruct (Z_le_gt_dec (Z.pos (digits2_pos p)) 53);
      [destruct Hsmall; lia|].
    destruct Hbig as [? Hc]; [lia|]. rewrite Hc by lia. done.
Qed.

(** ** The convergence test *)

Lemma is_converged_unfold (sum_X sum_X2 ntrials rtol : float) (maxtrials : Z) :
  is_converged sum_X sum_X2 ntrials rtol maxtrials
  = relative_error_met sum_X sum_X2 ntrials rtol
    || cap_exceeded ntrials maxtrials.
Proof. reflexivity. Qed.

(** With both sums zero the mean is zero (or not a number), the quotient by
    its square is not a number, and the comparison fails whatever the
    tolerance. *)
Lemma relative_error_zero_sums (ntrials rtol : float) :
  relative_error_met 0 0 ntrials rtol = false.
Proof.
  unfold relative_error_met, variance, mean_of_squares, mean.
  rewrite ltb_spec, !div_spec, sub_spec, !mul_spec, !div_spec.
  change (Prim2SF 0) with (S754_zero false).
  destruct (Prim2SF ntrials) as [[]|[]| |[] m e]; reflexivity.
Qed.

(** C1, as amended.  For a trial count of at least one, passed as a double
    as [main] passes it, and a cap below [2^53], [is_converged] returns
    true exactly when [variance / (mean*mean) / ntrials <
    relative_tolerance^2], with [mean = sum_X/ntrials], [mean_of_squares =
    sum_X2/ntrials] and [variance = mean_of_squares - mean*mean] computed
    in double precision, or [ntrials > max_trials] as integers. *)
Theorem is_converged_spec (sum_X sum_X2 rtol : float)
    (ntrials maxtrials : Z) :
  1 <= ntrials <= LONG_MAX ->
  LONG_MIN <= maxtrials < 2 ^ 53 ->
  is_converged sum_X sum_X2 (of_long ntrials) rtol maxtrials = true <->
  (variance sum_X sum_X2 (of_long ntrials)
   / (mean sum_X (of_long ntrials) * mean sum_X (of_long ntrials))
   / of_long ntrials
   <? rtol * rtol)%float = true
  \/ maxtrials < ntrials.
Proof.
  intros Hn Hm. rewrite is_converged_unfold.
  unfold relative_error_met, cap_exceeded.
  rewrite of_long_ltb by lia. rewrite orb_true_iff, Z.ltb_lt. done.
Qed.

(** C1 at sums of [2.5] and [1.25] over five trials with a tolerance of one
    and a cap of ten: the relative test holds and the count is not above
    the cap. *)
Lemma is_converged_spec_witness :
  1 <= 5 <= LONG_MAX
  /\ LONG_MIN <= 10 < 2 ^ 53
  /\ (is_converged 2.5 1.25 (of_long 5) 1 10 = true <->
      (variance 2.5 1.25 (of_long 5)
       / (mean 2.5 (of_long 5) * mean 2.5 (of_long 5)) / of_long 5
       <? 1 * 1)%float = true
      \/ 10 < 5).
Proof.
  assert (H1 : 1 <= 5 <= LONG_MAX) by (unfold LONG_MAX; lia).
  assert (H2 : LONG_MIN <= 10 < 2 ^ 53) by (unfold LONG_MIN; lia).
  exact (conj H1 (conj H2 (is_converged_spec 2.5 1.25 1 5 10 H1 H2))).
Defined.

(** C1 as stated fails from [2^53] on, where the cap is compared after its
    conversion to double: a count of [2^53 + 1] is greater than a cap of
    [2^53] and converts to the same double, so with a mean of one, a
    variance of one and a tolerance of [2^-30], where the relative test
    fails as well, [is_converged] returns false. *)
Lemma cap_compared_in_double :
  1 <= 2 ^ 53 + 1 <= LONG_MAX
  /\ 2 ^ 53 < 2 ^ 53 + 1
  /\ of_long (2 ^ 53 + 1) = of_long (2 ^ 53)
  /\ mean 9007199254740992 (of_long (2 ^ 53 + 1)) = 1%float
  /\ variance 9007199254740992 18014398509481984 (of_long (2 ^ 53 + 1))
     = 1%float
  /\ is_converged 9007199254740992 18014398509481984 (of_long (2 ^ 53 + 1))
       0x1p-30 (2 ^ 53) = false.
Proof.
  split; [unfold LONG_MAX; lia|]. split; [lia|].
  repeat split; vm_compute; reflexivity.
Qed.

(** C4, as amended.  For a cap below [2^53] and a trial count of at least
    one that is greater than the cap, [is_converged] returns true whatever
    the sums are, also when the relative test is degenerate. *)
Theorem cap_wins (sum_X sum_X2 rtol : float) (ntrials maxtrials : Z) :
  LONG_MIN <= maxtrials < 2 ^ 53 ->
  1 <= ntrials <= LONG_MAX ->
  maxtrials < ntrials ->
  is_converged sum_X sum_X2 (of_long ntrials) rtol maxtrials = true.
Proof.
  intros Hm Hn Hlt. rewrite is_converged_unfold. apply orb_true_iff. right.
  unfold cap_exceeded. rewrite of_long_ltb by lia. by apply Z.ltb_lt.
Qed.

(** C4 at a cap of 10 and 11 trials with zero sums, where the relative test
    is degenerate. *)
Lemma cap_wins_witness :
  LONG_MIN <= 10 < 2 ^ 53 /\ 1 <= 11 <= LONG_MAX /\ 10 < 11
  /\ relative_error_met 0 0 (of_long 11) 1 = false
  /\ is_converged 0 0 (of_long 11) 1 10 = true.
Proof.
  assert (H1 : LONG_MIN <= 10 < 2 ^ 53) by (unfold LONG_MIN; lia).
  assert (H2 : 1 <= 11 <= LONG_MAX) by (unfold LONG_MAX; lia).
  assert (H3 : 10 < 11) by lia.
  exact (conj H1 (conj H2 (conj H3 (conj eq_refl
           (cap_wins 0 0 1 11 10 H1 H2 H3))))).
Defined.

(** C4 as stated fails above [2^53]: the cap [2^53 + 3] becomes
    [2^53 + 4] when converted to double, so a count of [2^53 + 4], which
    is greater than the cap, does not compare greater. *)
Lemma cap_lost_in_rounding :
  2 ^ 53 + 3 < 2 ^ 53 + 4
  /\ 1 <= 2 ^ 53 + 4 <= LONG_MAX
  /\ of_long (2 ^ 53 + 4) = 9007199254740996%float
  /\ of_long (2 ^ 53 + 3) = 9007199254740996%float
  /\ is_converged 0 0 (of_long (2 ^ 53 + 4)) (rtol initial_globals)
       (2 ^ 53 + 3) = false.
Proof.
  split; [lia|]. split; [unfold LONG_MAX; lia|].
  repeat split; vm_compute; reflexivity.
Qed.

(** A right shift keeps a mantissa that is not negative so. *)
Lemma shr_fexp_nonneg (m e : Z) (l : location) :
  0 <= m -> 0 <= shr_m (shr_fexp prec emax m e l).1.
Proof.
  intros Hm. unfold shr_fexp, shr.
  assert (H0 : shr_m (shr_record_of_loc m l) = m) by (by destruct l as [|[]]).
  destruct (fexp prec emax (Zdigits2 m + e) - e) as [|p|p]; cbn [fst];
    rewrite ?shr_iter_m, H0; try lia.
  apply Z.div_pos; [done|]. apply Z.pow_pos_nonneg; lia.
Qed.

(** Rounding a mantissa that is not negative under the sign of a positive
    number gives zero, a positive number or infinity: minus infinity is
    below the result. *)
Lemma binary_round_aux_positive (m e : Z) (l : location) :
  0 <= m ->
  SFltb (S754_infinity true) (binary_round_aux prec emax false m e l) = true.
Proof.
  intros Hm. unfold binary_round_aux.
  pose proof (shr_fexp_nonneg m e l Hm) as H1.
  destruct (shr_fexp prec emax m e l) as [mrs' e']. cbn [fst] in H1.
  pose proof (round_nearest_even_bounds (shr_m mrs') (loc_of_shr_record mrs'))
    as Hr.
  pose proof (shr_fexp_nonneg
                (round_nearest_even (shr_m mrs') (loc_of_shr_record mrs'))
                e' loc_Exact ltac:(lia)) as H2.
  destruct (shr_fexp prec emax _ e' loc_Exact) as [mrs'' e''].
  cbn [fst] in H2.
  destruct (shr_m mrs'') as [|p|p]; [done| |lia].
  by destruct (e'' <=? emax - prec).
Qed.

(** The square of a double is not negative: minus infinity is below it
    unless it is not a number. *)
Lemma neg_infinity_below_square (x : float) :
  (neg_infinity <? x * x)%float = negb (is_nan x).
Proof.
  unfold is_nan. rewrite ltb_spec, FloatAxioms.eqb_spec, mul_spec.
  change (Prim2SF neg_infinity) with (S754_infinity true).
  destruct (Prim2SF x) as [[]|[]| |s m e]; try reflexivity.
  unfold SF64mul, SFmul. replace (xorb s s) with false by (by destruct s).
  rewrite binary_round_aux_positive by lia.
  unfold SFeqb, SFcompare. rewrite Z.compare_refl.
  change (PosDef.Pos.compare_cont Eq m m) with (Pos.compare m m).
  rewrite Pos.compare_refl. by destruct s.
Qed.

(** C8.  At every input with [ntrials >= 1] and a mean of exactly zero the
    divisor [mean*mean] is zero and [is_converged] divides by it as by any
    other divisor: the quotient is minus infinity, infinity or
    not-a-number, as the mean of squares is negative, positive or neither,
    and it is this quotient that is compared with the squared tolerance.
    So with a negative mean of squares [is_converged] returns true for
    every tolerance that is a number, however far the count is from the
    cap, and otherwise it returns what the cap test returns: no special
    case gives a mean of zero an answer of its own. *)
Theorem division_by_zero_mean (sum_X sum_X2 rtol : float)
    (ntrials maxtrials : Z) :
  1 <= ntrials <= LONG_MAX ->
  (mean sum_X (of_long ntrials) =? 0)%float = true ->
  (mean sum_X (of_long ntrials) * mean sum_X (of_long ntrials))%float
  = 0%float
  /\ (variance sum_X sum_X2 (of_long ntrials)
      / (mean sum_X (of_long ntrials) * mean sum_X (of_long ntrials))
      / of_long ntrials)%float
     = (if (mean_of_squares sum_X2 (of_long ntrials) <? 0)%float
        then neg_infinity
        else if (0 <? mean_of_squares sum_X2 (of_long ntrials))%float
             then infinity else nan)
  /\ is_converged sum_X sum_X2 (of_long ntrials) rtol maxtrials
     = (mean_of_squares sum_X2 (of_long ntrials) <? 0)%float
       && negb (is_nan rtol)
       || (of_long maxtrials <? of_long ntrials)%float.
Proof.
  intros Hn Hmean.
  rewrite is_converged_unfold.
  unfold relative_error_met, variance, cap_exceeded.
  set (n := of_long ntrials) in *.
  assert (Hpn : exists m e, Prim2SF n = S754_finite false m e).
  { unfold n. rewrite Prim2SF_of_long by (unfold LONG_MIN, LONG_MAX in *; lia).
    unfold LONG_MAX in Hn. destruct ntrials as [|p|p]; try lia.
    cbn [binary_normalize].
    destruct (binary_round_int false p) as (m & e & -> & _); [|by eauto].
    apply digits2_pos_le; lia. }
  destruct Hpn as (mn & en & Hpn).
  generalize dependent (mean sum_X n). intros mu Hmean.
  generalize (mean_of_squares sum_X2 n). intros musq.
  rewrite FloatAxioms.eqb_spec in Hmean.
  change (Prim2SF 0) with (S754_zero false) in Hmean.
  assert (Hzero : (mu * mu)%float = 0%float).
  { apply Prim2SF_inj. rewrite mul_spec.
    destruct (Prim2SF mu) as [[]|[]| |[] m e]; done. }
  rewrite Hzero. split; [done|].
  assert (Hq : Prim2SF ((musq - 0) / 0 / n)
               = match Prim2SF musq with
                 | S754_infinity s | S754_finite s _ _ => S754_infinity s
                 | _ => S754_nan
                 end).
  { rewrite !div_spec, sub_spec, Hpn.
    change (Prim2SF 0) with (S754_zero false).
    destruct (Prim2SF musq) as [[]|[]| |[] m e]; reflexivity. }
  split.
  - apply Prim2SF_inj. rewrite Hq, !ltb_spec.
    change (Prim2SF 0) with (S754_zero false).
    destruct (Prim2SF musq) as [[]|[]| |[] m e]; reflexivity.
  - f_equal. rewrite <- neg_infinity_below_square, !ltb_spec, Hq.
    change (Prim2SF 0) with (S754_zero false).
    change (Prim2SF neg_infinity) with (S754_infinity true).
    destruct (Prim2SF musq) as [[]|[]| |[] m e]; try reflexivity.
    all: by destruct (Prim2SF (rtol * rtol)) as [[]|[]| |[] m' e'].
Qed.

(** C8 at [sum_X = 0] and one trial, under a cap of ten and with an
    infinite tolerance: with [sum_X2 = 0] the quotient is [0/0] and with
    [sum_X2 = 1] it is [1/0], and the test fails; with [sum_X2 = -1] it is
    [-1/0] and the test holds. *)
Lemma division_by_zero_mean_witness :
  1 <= 1 <= LONG_MAX
  /\ (mean 0 (of_long 1) =? 0)%float = true
  /\ is_converged 0 0 (of_long 1) infinity 10 = false
  /\ is_converged 0 1 (of_long 1) infinity 10 = false
  /\ is_converged 0 (-1) (of_long 1) infinity 10 = true.
Proof.
  assert (H1 : 1 <= 1 <= LONG_MAX) by (unfold LONG_MAX; lia).
  assert (H2 : (mean 0 (of_long 1) =? 0)%float = true) by reflexivity.
  exact (conj H1 (conj H2
    (conj (eq_trans
             (proj2 (proj2 (division_by_zero_mean 0 0 infinity 1 10 H1 H2)))
             eq_refl)
    (conj (eq_trans
             (proj2 (proj2 (division_by_zero_mean 0 1 infinity 1 10 H1 H2)))
             eq_refl)
          (eq_trans
             (proj2 (proj2
                (division_by_zero_mean 0 (-1) infinity 1 10 H1 H2)))
             eq_refl))))).
Defined.

(** ** Argument processing *)

(** Every [exit] of [process_args] has status [-1]. *)
Lemma process_args_exit_status (g : globals) (rets : list getopt_ret)
    (nonoption_left : bool) (status : Z) (message : string) :
  process_args g rets nonoption_left = Exit status message -> status = -1.
Proof.
  revert g. induction rets as [|[|v|v|v|c] rest IH]; intros g; cbn.
  - destruct nonoption_left; congruence.
  - apply IH.
  - destruct (v <? 0)%float; [congruence|apply IH].
  - destruct (v <? 1); [congruence|apply IH].
  - destruct (v <? 1); [congruence|apply IH].
  - destruct (takes_argument c); congruence.
Qed.

(** What [process_args] lets through. *)
Lemma process_args_proceed (g g' : globals) (rets : list getopt_ret)
    (nonoption_left : bool) :
  process_args g rets nonoption_left = Proceed g' ->
  (1 <= maxtrials g -> 1 <= maxtrials g')
  /\ (1 <= nbatch g -> 1 <= nbatch g')
  /\ ((rtol g <? 0)%float = false -> (rtol g' <? 0)%float = false).
Proof.
  revert g. induction rets as [|[|v|v|v|c] rest IH]; intros g; cbn.
  - destruct nonoption_left; [congruence|]. intros [= ->]. done.
  - apply IH.
  - destruct (v <? 0)%float eqn:E; [congruence|].
    intros H. apply IH in H. cbn in H. intuition.
  - destruct (Z.ltb_spec v 1) as [|Hv]; [congruence|].
    intros H. apply IH in H. cbn in H. intuition.
  - destruct (Z.ltb_spec v 1) as [|Hv]; [congruence|].
    intros H. apply IH in H. cbn in H. intuition.
  - destruct (takes_argument c); congruence.
Qed.

(** From the initial values, what is let through has a positive cap and a
    positive batch size. *)
Lemma process_args_valid (g : globals) (rets : list getopt_ret)
    (nonoption_left : bool) :
  process_args initial_globals rets nonoption_left = Proceed g ->
  1 <= maxtrials g /\ 1 <= nbatch g.
Proof.
  intros H. apply process_args_proceed in H. cbn in H.
  destruct H as (Hn & Hb & _). split; [apply Hn|apply Hb]; lia.
Qed.

(** An option whose value fails its test, or an option [getopt] does not
    know, ends [process_args] in [exit(-1)], wherever it stands. *)
Lemma process_args_rejects (g : globals) (rets : list getopt_ret)
    (nonoption_left : bool) (bad : getopt_ret) :
  match bad with
  | Opt_t v => (v <? 0)%float = true
  | Opt_n v | Opt_b v => v < 1
  | Opt_unknown _ => True
  | Opt_p => False
  end ->
  bad ∈ rets ->
  exists message, process_args g rets nonoption_left = Exit (-1) message.
Proof.
  intros Hbad Hin. revert g.
  induction rets as [|r rest IH]; intros g; [by apply elem_of_nil in Hin|].
  apply elem_of_cons in Hin as [<-|Hin].
  - destruct bad as [|v|v|v|c]; cbn; try done.
    + rewrite Hbad. eauto.
    + apply Z.ltb_lt in Hbad as ->. eauto.
    + apply Z.ltb_lt in Hbad as ->. eauto.
    + destruct (takes_argument c); eauto.
  - destruct r as [|v|v|v|c]; cbn.
    + apply IH, Hin.
    + destruct (v <? 0)%float; [eauto|apply IH, Hin].
    + destruct (v <? 1); [eauto|apply IH, Hin].
    + destruct (v <? 1); [eauto|apply IH, Hin].
    + destruct (takes_argument c); eauto.
Qed.

(** A rejected command line runs no thread: [main] ends in [exit] whatever
    the team, the deviates and the schedule. *)
Lemma main_rejected (rets : list getopt_ret) (nonoption_left : bool)
    (status : Z) (message : string) :
  process_args initial_globals rets nonoption_left = Exit status message ->
  forall nthreads deviates sched,
    main rets nonoption_left nthreads deviates sched = Rejected status message.
Proof. intros H nthreads deviates sched. unfold main. rewrite H. done. Qed.

(** C9.  A command line that sets the batch size to zero is rejected during
    argument processing: [process_args] calls [exit] with a non-zero
    status, and [main] runs no thread, whatever else the command line
    holds. *)
Theorem zero_batch_rejected (rets : list getopt_ret)
    (nonoption_left : bool) :
  Opt_b 0 ∈ rets ->
  exists message,
    process_args initial_globals rets nonoption_left = Exit (-1) message
    /\ wait_status (-1) <> 0
    /\ forall nthreads deviates sched,
         main rets nonoption_left nthreads deviates sched
         = Rejected (-1) message.
Proof.
  intros Hin.
  destruct (process_args_rejects initial_globals rets nonoption_left (Opt_b 0))
    as [message H]; [cbn; lia|done|].
  exists message. split; [done|]. split; [done|].
  by apply main_rejected.
Qed.

(** C9 for [-t 1 -b 0 -n 10]. *)
Lemma zero_batch_rejected_witness :
  Opt_b 0 ∈ [Opt_t 1; Opt_b 0; Opt_n 10]
  /\ exists message,
       process_args initial_globals [Opt_t 1; Opt_b 0; Opt_n 10] false
       = Exit (-1) message
       /\ wait_status (-1) <> 0
       /\ forall nthreads deviates sched,
            main [Opt_t 1; Opt_b 0; Opt_n 10] false nthreads deviates sched
            = Rejected (-1) message.
Proof.
  assert (H : Opt_b 0 ∈ [Opt_t 1; Opt_b 0; Opt_n 10])
    by (repeat constructor).
  exact (conj H (zero_batch_rejected _ false H)).
Defined.

(** C2 at [-t 0].  The test is [rtol < 0], which zero passes:
    [process_args] returns with [rtol = 0], [main] does not end in [exit],
    and a thread runs its first batch of 500 trials and merges it.  The
    message of that test reads "rtol must be positive", and the tests of
    [maxtrials] and [nbatch] ([< 1]) do reject zero. *)
Theorem zero_tolerance_accepted :
  process_args initial_globals [Opt_t 0] false
  = Proceed zero_tolerance_globals
  /\ (rtol zero_tolerance_globals <=? 0)%float = true
  /\ (forall nthreads deviates sched status message,
        main [Opt_t 0] false nthreads deviates sched
        <> Rejected status message)
  /\ exists log s,
       exec zero_tolerance_globals halves [0; 0; 0]%nat (init 1)
       = Some (log, s)
       /\ all_ntrials (sh s) = 500.
Proof.
  split; [reflexivity|]. split; [reflexivity|]. split.
  - intros nthreads deviates sched status message. unfold main.
    change (process_args initial_globals [Opt_t 0] false)
      with (Proceed zero_tolerance_globals). cbv iota beta.
    destruct (exec _ _ _ _) as [[log s]|]; [|done].
    by destruct (all_exited s).
  - eexists _, _. split; vm_compute; reflexivity.
Qed.

(** A negative tolerance is rejected. *)
Lemma negative_tolerance_rejected (rets : list getopt_ret)
    (nonoption_left : bool) (v : float) :
  (v <? 0)%float = true -> Opt_t v ∈ rets ->
  exists message,
    process_args initial_globals rets nonoption_left = Exit (-1) message.
Proof. intros Hv Hin. by apply (process_args_rejects _ _ _ (Opt_t v)). Qed.

(** ** Steps and runs of the parallel region *)

Section Region.

Context (g : globals) (deviates : nat -> nat -> float).

(** What a batch, a merge and a step yield when they yield a result. *)
Lemma run_batch_Some (draw : nat -> float) (a : shared) (th th' : thread) :
  run_batch draw a th = Some th' ->
  exists tn,
    tnbatch a = Some tn
    /\ th' = {| pc := AtMerge; done_flag := done_flag th;
                sum_X := (trials draw (Z.to_nat tn) 0 0 (drawn th)).1.1;
                sum_X2 := (trials draw (Z.to_nat tn) 0 0 (drawn th)).1.2;
                drawn := (trials draw (Z.to_nat tn) 0 0 (drawn th)).2 |}.
Proof.
  unfold run_batch. destruct (tnbatch a) as [tn|]; [|done]. cbn.
  intros H. exists tn. split; [done|].
  destruct (trials _ _ _ _ _) as [[sx sx2] c]. by injection H as <-.
Qed.

Lemma merge_Some (a a' : shared) (th th' : thread) :
  merge g a th = Some (a', th') ->
  exists tn,
    tnbatch a = Some tn
    /\ in_long (all_ntrials a + tn) = true
    /\ a' = {| all_sum_X := (all_sum_X a + sum_X th)%float;
               all_sum_X2 := (all_sum_X2 a + sum_X2 th)%float;
               all_ntrials := all_ntrials a + tn;
               tnbatch := tnbatch a |}
    /\ done_flag th' = done_flag th || oracle g a || oracle g a'
    /\ pc th' = (if done_flag th' then Exited else AtBatch)
    /\ sum_X th' = sum_X th /\ sum_X2 th' = sum_X2 th
    /\ drawn th' = drawn th.
Proof.
  unfold merge. destruct (tnbatch a) as [tn|] eqn:Etn; [|done]. cbn.
  destruct (in_long _) eqn:Hin; [|done].
  intros [= <- <-]. exists tn. cbn. repeat split; done.
Qed.

(** The three kinds of step. *)
Lemma step_Some (s s' : state) (tid : nat) :
  step g deviates s tid = Some s' ->
  exists th th',
    threads s !! tid = Some th
    /\ threads s' = <[tid := th']> (threads s)
    /\ ((pc th = AtStart /\ enter g (sh s) th = (sh s', th'))
        \/ (pc th = AtBatch /\ sh s' = sh s
            /\ run_batch (deviates tid) (sh s) th = Some th')
        \/ (pc th = AtMerge /\ merge g (sh s) th = Some (sh s', th'))).
Proof.
  unfold step. destruct (threads s !! tid) as [th|] eqn:Eth; [|done]. cbn.
  destruct (pc th) eqn:Epc.
  - intros [= <-]. exists th, (enter g (sh s) th).2. cbn. eauto 10.
  - destruct (run_batch _ _ _) as [th'|] eqn:Eb; [|done].
    intros [= <-]. exists th, th'. cbn. eauto 10.
  - destruct (merge _ _ _) as [[a th']|] eqn:Em; [|done].
    intros [= <-]. exists th, th'. cbn. eauto 10.
  - done.
Qed.

Lemma committed_merge (s : state) (tid : nat) (th : thread) :
  threads s !! tid = Some th ->
  committed s tid
  = match pc th with
    | AtMerge => [(tid, (sum_X th, sum_X2 th))]
    | _ => []
    end.
Proof. unfold committed. by intros ->. Qed.

(** A run under two schedules in a row. *)
Lemma exec_app (l1 l2 : list nat) (s : state) :
  exec g deviates (l1 ++ l2) s
  = '(log1, s1) ← exec g deviates l1 s;
    '(log2, s2) ← exec g deviates l2 s1;
    Some (log1 ++ log2, s2).
Proof.
  revert s. induction l1 as [|tid l1 IH]; intros s; cbn.
  - destruct (exec g deviates l2 s) as [[log2 s2]|]; done.
  - destruct (step g deviates s tid) as [s1|]; [|done]. cbn.
    rewrite IH. destruct (exec g deviates l1 s1) as [[log1 s1']|]; [|done].
    cbn. destruct (exec g deviates l2 s1') as [[log2 s2]|]; [|done].
    cbn. by rewrite app_assoc.
Qed.

Lemma exec_snoc (sched : list nat) (tid : nat) (s0 s' : state)
    (log' : list commit) :
  exec g deviates (sched ++ [tid]) s0 = Some (log', s') ->
  exists log s,
    exec g deviates sched s0 = Some (log, s)
    /\ step g deviates s tid = Some s'
    /\ log' = log ++ committed s tid.
Proof.
  rewrite exec_app.
  destruct (exec g deviates sched s0) as [[log s]|]; [|done]. cbn.
  destruct (step g deviates s tid) as [s1|] eqn:Es; [|done]. cbn.
  intros [= <- <-]. exists log, s. by rewrite app_nil_r.
Qed.

(** Induction over the runs from a state: a property of the log and the
    state that holds at the start and is kept by every step holds after
    every run. *)
Lemma exec_invariant (P : list commit -> state -> Prop) (s0 : state) :
  P [] s0 ->
  (forall log s tid s',
      P log s -> step g deviates s tid = Some s' ->
      P (log ++ committed s tid) s') ->
  forall sched log s, exec g deviates sched s0 = Some (log, s) -> P log s.
Proof.
  intros H0 Hstep sched.
  induction sched as [|tid sched IH] using rev_ind; intros log s.
  - by intros [= <- <-].
  - intros H. apply exec_snoc in H as (log1 & s1 & H1 & Hs & ->).
    eapply Hstep; eauto.
Qed.

Context (nthreads : nat).

(** One more commit adds its sums to the totals. *)
Lemma total_X_snoc (log : list commit) (c : commit) (x : float) :
  total_X (log ++ [c]) x = (total_X log x + c.2.1)%float.
Proof. unfold total_X. by rewrite fold_left_app. Qed.

Lemma total_X2_snoc (log : list commit) (c : commit) (x : float) :
  total_X2 (log ++ [c]) x = (total_X2 log x + c.2.2)%float.
Proof. unfold total_X2. by rewrite fold_left_app. Qed.

(** The totals are accounted for at the start, and every step keeps them
    so. *)
Lemma accounted_init : accounted g nthreads [] (init nthreads).
Proof.
  split; cbn; try done.
  - apply length_replicate.
  - unfold tnbatch_ok. cbn. by apply Forall_replicate.
  - apply Forall_replicate. unfold looping_unset. cbn. done.
Qed.

Lemma accounted_step (log : list commit) (s s' : state) (tid : nat) :
  accounted g nthreads log s ->
  step g deviates s tid = Some s' ->
  accounted g nthreads (log ++ committed s tid) s'.
Proof.
  intros [Hteam Htn Hunset Htids Hn HX HX2] Hstep.
  apply step_Some in Hstep as (th & th' & Hth & Hthreads & Hkind).
  rewrite (committed_merge _ _ _ Hth).
  destruct Hkind as [[Hpc Henter]|[(Hpc & Hsh & Hbatch)|[Hpc Hmerge]]];
    rewrite Hpc.
  - (* first lines *)
    injection Henter as Hsh Hth'. rewrite app_nil_r.
    split; rewrite ?Hthreads, ?length_insert, <- ?Hsh; cbn; try done.
    + unfold tnbatch_ok. rewrite <- Hsh. done.
    + apply Forall_insert; [done|]. rewrite <- Hth'. by intros _.
  - (* a batch *)
    apply run_batch_Some in Hbatch as (tn & Etn & ->). rewrite app_nil_r.
    split; rewrite ?Hthreads, ?length_insert, ?Hsh; try done.
    + unfold tnbatch_ok in *. rewrite Hsh. rewrite Etn in *. done.
    + apply Forall_insert; [done|]. intros _. cbn.
      apply (Forall_lookup_1 _ _ _ _ Hunset Hth). by left.
  - (* a merge *)
    apply merge_Some in Hmerge
      as (tn & Etn & Hfit & Ha' & Hflag & Hpc' & _).
    assert (tn = nbatch g) as ->
      by (unfold tnbatch_ok in Htn; by rewrite Etn in Htn).
    split; rewrite ?Hthreads, ?length_insert, ?Ha'; cbn; try done.
    + unfold tnbatch_ok. rewrite Ha'. cbn. by rewrite Etn.
    + apply Forall_insert; [done|]. unfold looping_unset. rewrite Hpc'.
      destruct (done_flag th'); [|done]. intros [|]; done.
    + apply Forall_app. split; [done|]. apply Forall_singleton. cbn.
      rewrite <- Hteam. by eapply lookup_lt_Some.
    + rewrite length_app. cbn. lia.
    + rewrite total_X_snoc. cbn. by rewrite HX.
    + rewrite total_X2_snoc. cbn. by rewrite HX2.
Qed.

Lemma accounted_exec (sched : list nat) (log : list commit) (s : state) :
  exec g deviates sched (init nthreads) = Some (log, s) ->
  accounted g nthreads log s.
Proof.
  apply (exec_invariant (accounted g nthreads)).
  - apply accounted_init.
  - intros. by eapply accounted_step.
Qed.

End Region.

(** ** The shared totals *)

Lemma sum_list_with_ext {A} (f h : A -> nat) (l : list A) :
  (forall x, f x = h x) -> sum_list_with f l = sum_list_with h l.
Proof. intros E. induction l as [|x l IH]; cbn; [done|]. by rewrite E, IH. Qed.

Lemma sum_list_with_plus {A} (f h : A -> nat) (l : list A) :
  sum_list_with (λ x, f x + h x)%nat l
  = (sum_list_with f l + sum_list_with h l)%nat.
Proof. induction l as [|x l IH]; cbn; [done|]. rewrite IH. lia. Qed.

Lemma sum_indicator_seq (w n : nat) :
  sum_list_with (λ i, if decide (w = i) then 1 else 0)%nat (seq 0 n)
  = if decide (w < n)%nat then 1%nat else 0%nat.
Proof.
  induction n as [|n IH]; [done|].
  rewrite seq_S, sum_list_with_app, IH. cbn.
  repeat destruct (decide _); lia.
Qed.

(** One more commit is one more batch for its thread, and for no other. *)
Lemma batches_run_snoc (log : list commit) (c : commit) (tid : nat) :
  batches_run (log ++ [c]) tid
  = (batches_run log tid + if decide (c.1 = tid) then 1 else 0)%nat.
Proof.
  unfold batches_run. rewrite filter_app, length_app. f_equal.
  rewrite filter_cons, filter_nil. by destruct (decide _).
Qed.

Lemma batches_run_le (log : list commit) (tid : nat) :
  (batches_run log tid <= length log)%nat.
Proof. apply length_filter. Qed.

(** The batches of the threads of the team add up to the merges of the
    log. *)
Lemma batches_run_total (log : list commit) (nthreads : nat) :
  Forall (λ c, (c.1 < nthreads)%nat) log ->
  sum_list_with (batches_run log) (seq 0 nthreads) = length log.
Proof.
  induction log as [|c log IH] using rev_ind; intros Hlog.
  - induction (seq 0 nthreads) as [|i l IHl]; [done|]. cbn. by rewrite IHl.
  - apply Forall_app in Hlog as [Hlog Hc]. rewrite Forall_singleton in Hc.
    rewrite (sum_list_with_ext _ _ _ (batches_run_snoc log c)).
    rewrite sum_list_with_plus, IH, sum_indicator_seq, length_app by done.
    cbn. destruct (decide _); lia.
Qed.

(** C5.  After every run of the region the shared count is a non-negative
    multiple of the batch size, equal to the batch size times the sum over
    the threads of the batches each has merged; the shared sums are the
    totals of the committed batches, added in the order of their merges,
    and of nothing else.  A merge adds exactly one batch size to the count
    and the thread's local sums to the totals; no other step changes
    them. *)
Theorem committed_totals (rets : list getopt_ret) (nonoption_left : bool)
    (g : globals) (nthreads : nat) (deviates : nat -> nat -> float)
    (sched : list nat) (log : list commit) (s : state) :
  process_args initial_globals rets nonoption_left = Proceed g ->
  exec g deviates sched (init nthreads) = Some (log, s) ->
  0 <= all_ntrials (sh s)
  /\ (nbatch g | all_ntrials (sh s))
  /\ all_ntrials (sh s)
     = Z.of_nat (sum_list_with (batches_run log) (seq 0 nthreads)) * nbatch g
  /\ all_sum_X (sh s) = total_X log 0
  /\ all_sum_X2 (sh s) = total_X2 log 0
  /\ forall tid s',
       step g deviates s tid = Some s' ->
       (committed s tid = []
        /\ all_ntrials (sh s') = all_ntrials (sh s)
        /\ all_sum_X (sh s') = all_sum_X (sh s)
        /\ all_sum_X2 (sh s') = all_sum_X2 (sh s))
       \/ (exists c,
             committed s tid = [c] /\ c.1 = tid
             /\ all_ntrials (sh s') = all_ntrials (sh s) + nbatch g
             /\ all_sum_X (sh s') = (all_sum_X (sh s) + c.2.1)%float
             /\ all_sum_X2 (sh s') = (all_sum_X2 (sh s) + c.2.2)%float).
Proof.
  intros Hargs Hexec.
  apply process_args_valid in Hargs as [_ Hb].
  pose proof (accounted_exec _ _ _ _ _ _ Hexec)
    as [Hteam Htn Hunset Htids Hn HX HX2].
  rewrite batches_run_total by done.
  repeat split; try done.
  - rewrite Hn. lia.
  - rewrite Hn. by exists (Z.of_nat (length log)).
  - intros tid s' Hstep.
    apply step_Some in Hstep as (th & th' & Hth & Hthreads & Hkind).
    rewrite (committed_merge _ _ _ Hth).
    destruct Hkind as [[Hpc Henter]|[(Hpc & Hsh & Hbatch)|[Hpc Hmerge]]];
      rewrite Hpc.
    + left. injection Henter as <- _. done.
    + left. by rewrite Hsh.
    + right. apply merge_Some in Hmerge as (tn & Etn & _ & Ha' & _).
      assert (tn = nbatch g) as ->
        by (unfold tnbatch_ok in Htn; by rewrite Etn in Htn).
      eexists. split; [done|]. by rewrite Ha'.
Qed.

(** C5 for the run of one thread on deviates of one half. *)
Lemma committed_totals_witness :
  process_args initial_globals halves_args false = Proceed halves_globals
  /\ exec halves_globals halves [0; 0; 0]%nat (init 1)
     = Some (halves_log, halves_final)
  /\ 0 <= all_ntrials (sh halves_final)
  /\ (nbatch halves_globals | all_ntrials (sh halves_final))
  /\ all_ntrials (sh halves_final)
     = Z.of_nat (sum_list_with (batches_run halves_log) (seq 0 1))
       * nbatch halves_globals
  /\ all_sum_X (sh halves_final) = total_X halves_log 0
  /\ all_sum_X2 (sh halves_final) = total_X2 halves_log 0.
Proof.
  pose proof (committed_totals halves_args false halves_globals 1 halves
                [0; 0; 0]%nat halves_log halves_final eq_refl eq_refl)
    as (H1 & H2 & H3 & H4 & H5 & _).
  exact (conj eq_refl (conj eq_refl
           (conj H1 (conj H2 (conj H3 (conj H4 H5)))))).
Defined.

(** ** The termination flags *)

(** C6.  A merge in a run of the region evaluates the oracle on the totals
    as they are before the thread's local sums are added and on the totals
    after, and sets the thread's flag exactly when one of the two returns
    true; the thread leaves its loop when the flag is set and starts
    another batch when it is not. *)
Theorem merge_checks_before_and_after (g : globals) (nthreads : nat)
    (deviates : nat -> nat -> float) (sched : list nat) (log : list commit)
    (s s' : state) (tid : nat) (th : thread) :
  exec g deviates sched (init nthreads) = Some (log, s) ->
  threads s !! tid = Some th -> pc th = AtMerge ->
  step g deviates s tid = Some s' ->
  exists th',
    threads s' !! tid = Some th'
    /\ all_sum_X (sh s') = (all_sum_X (sh s) + sum_X th)%float
    /\ all_sum_X2 (sh s') = (all_sum_X2 (sh s) + sum_X2 th)%float
    /\ all_ntrials (sh s') = all_ntrials (sh s) + nbatch g
    /\ done_flag th' = oracle g (sh s) || oracle g (sh s')
    /\ (pc th' = Exited <-> done_flag th' = true)
    /\ (pc th' = AtBatch <-> done_flag th' = false).
Proof.
  intros Hexec Hth Hpc Hstep.
  pose proof (accounted_exec _ _ _ _ _ _ Hexec)
    as [Hteam Htn Hunset _ _ _ _].
  apply step_Some in Hstep as (th0 & th' & Hth0 & Hthreads & Hkind).
  rewrite Hth in Hth0. injection Hth0 as <-.
  destruct Hkind as [[Hpc' _]|[(Hpc' & _)|[_ Hmerge]]]; [congruence..|].
  apply merge_Some in Hmerge as (tn & Etn & _ & Ha' & Hflag & Hpc' & _).
  assert (tn = nbatch g) as ->
    by (unfold tnbatch_ok in Htn; by rewrite Etn in Htn).
  assert (done_flag th = false) as Hunset_th
    by (apply (Forall_lookup_1 _ _ _ _ Hunset Hth); by right).
  rewrite Hunset_th in Hflag. cbn in Hflag.
  exists th'. split.
  { rewrite Hthreads. apply list_lookup_insert_eq. by eapply lookup_lt_Some. }
  rewrite Ha' in Hflag |- *. cbn. do 4 (split; [done|]).
  rewrite Hpc'. destruct (done_flag th'); split; split; done.
Qed.

(** C6 for the merge of the thread that drew halves: the check before the
    merge fails (there are no trials yet), the check after it succeeds. *)
Lemma merge_checks_before_and_after_witness :
  exec halves_globals halves [0; 0]%nat (init 1)
  = Some ([], halves_after_batch)
  /\ step halves_globals halves halves_after_batch 0 = Some halves_final
  /\ oracle halves_globals (sh halves_after_batch) = false
  /\ oracle halves_globals (sh halves_final) = true
  /\ exists th',
       threads halves_final !! 0%nat = Some th'
       /\ done_flag th'
          = oracle halves_globals (sh halves_after_batch)
            || oracle halves_globals (sh halves_final).
Proof.
  destruct (merge_checks_before_and_after halves_globals 1 halves
              [0; 0]%nat [] halves_after_batch halves_final 0
              {| pc := AtMerge; done_flag := false; sum_X := 2.5;
                 sum_X2 := 1.25; drawn := 5 |}
              eq_refl eq_refl eq_refl eq_refl)
    as (th' & Hth' & _ & _ & _ & Hflag & _).
  exact (conj eq_refl (conj eq_refl (conj eq_refl (conj eq_refl
           (ex_intro _ th' (conj Hth' Hflag)))))).
Defined.

(** C3, as amended.  The flag is private to each thread.  A step of one
    thread leaves every other thread's variables, its flag among them, as
    they are; past its first lines a thread's own flag, once set, stays
    set; and at a merge the flag is set exactly when it was set already or
    one of the thread's two checks returns true, the thread leaving its
    loop exactly when its own flag is set. *)
Theorem private_monotonic_flags (g : globals)
    (deviates : nat -> nat -> float) (s s' : state) (tid : nat) :
  step g deviates s tid = Some s' ->
  (forall i thi,
      i <> tid -> threads s !! i = Some thi -> threads s' !! i = Some thi)
  /\ exists th th',
       threads s !! tid = Some th /\ threads s' !! tid = Some th'
       /\ (pc th <> AtStart -> done_flag th = true -> done_flag th' = true)
       /\ (pc th = AtMerge ->
             (pc th' = Exited <-> done_flag th' = true)
             /\ (pc th' = AtBatch <-> done_flag th' = false)
             /\ (done_flag th' = true <->
                 done_flag th = true \/ oracle g (sh s) = true
                 \/ oracle g (sh s') = true)).
Proof.
  intros Hstep.
  apply step_Some in Hstep as (th & th' & Hth & Hthreads & Hkind).
  split.
  { intros i thi Hi Hthi. rewrite Hthreads.
    by rewrite list_lookup_insert_ne. }
  exists th, th'. split; [done|]. split.
  { rewrite Hthreads. apply list_lookup_insert_eq. by eapply lookup_lt_Some. }
  destruct Hkind as [[Hpc _]|[(Hpc & _ & Hbatch)|[Hpc Hmerge]]].
  - split; [done|]. rewrite Hpc. done.
  - apply run_batch_Some in Hbatch as (tn & _ & ->).
    split; [done|]. rewrite Hpc. done.
  - apply merge_Some in Hmerge as (tn & _ & _ & _ & Hflag & Hpc' & _).
    split.
    + intros _ Hset. rewrite Hflag, Hset. done.
    + intros _. rewrite Hpc', Hflag.
      destruct (done_flag th), (oracle g (sh s)), (oracle g (sh s')); cbn;
        intuition congruence.
Qed.

(** C3, as amended, for the merge of thread 2 after threads 0 and 1 have set
    their flags: both of its checks fail and it starts another batch. *)
Lemma private_monotonic_flags_witness :
  step trio_globals trio trio_before_third_merge 2
  = Some trio_after_third_merge
  /\ (forall i thi,
        i <> 2%nat ->
        threads trio_before_third_merge !! i = Some thi ->
        threads trio_after_third_merge !! i = Some thi)
  /\ oracle trio_globals (sh trio_before_third_merge) = false
  /\ oracle trio_globals (sh trio_after_third_merge) = false.
Proof.
  destruct (private_monotonic_flags trio_globals trio
              trio_before_third_merge trio_after_third_merge 2 eq_refl)
    as [Hothers _].
  exact (conj eq_refl (conj Hothers (conj eq_refl eq_refl))).
Defined.

(** C3 as stated fails with three threads: the first merge sets the flag of
    thread 0 and the second, which sees the same totals, that of thread 1;
    thread 2 then merges into totals on which both of its checks fail, and
    goes on to another batch although two flags are set. *)
Lemma flag_is_not_shared :
  exec trio_globals trio trio_schedule (init 3)
  = Some ([(0%nat, (0.5, 0.25)%float); (1%nat, (1, 1)%float)],
          trio_before_third_merge)
  /\ ~ stops_at_batch_end trio_globals trio 3.
Proof.
  split; [reflexivity|]. intros H.
  specialize (H trio_schedule _ trio_before_third_merge 0%nat _ 2%nat _
                trio_after_third_merge _
                eq_refl eq_refl eq_refl eq_refl eq_refl eq_refl eq_refl).
  discriminate H.
Qed.

(** ** One thread, every deviate one half *)

(** C7.  With [relative_tolerance = 1.0], [max_trials = 10],
    [batch_size = 5], one thread and every deviate [0.5]: the first batch
    has local sums [2.5] and [1.25]; merged, the totals are [2.5], [1.25]
    and 5 trials, the mean is [0.5], the variance [0], the relative error
    [0 < 1], and the test succeeds; the thread leaves its loop at that
    merge; [main] reports a mean of [0.5], a standard error of [0] and 5
    trials, and no schedule makes it report anything else. *)
Theorem halves_converge_after_one_batch :
  process_args initial_globals halves_args false = Proceed halves_globals
  /\ exec halves_globals halves [0; 0]%nat (init 1)
     = Some ([], halves_after_batch)
  /\ exec halves_globals halves [0; 0; 0]%nat (init 1)
     = Some (halves_log, halves_final)
  /\ mean 2.5 (of_long 5) = 0.5%float
  /\ variance 2.5 1.25 (of_long 5) = 0%float
  /\ (variance 2.5 1.25 (of_long 5)
      / (mean 2.5 (of_long 5) * mean 2.5 (of_long 5)) / of_long 5)%float
     = 0%float
  /\ (0 <? 1 * 1)%float = true
  /\ oracle halves_globals (sh halves_final) = true
  /\ main halves_args false 1 halves [0; 0; 0]%nat = Returned halves_report
  /\ forall sched r,
       main halves_args false 1 halves sched = Returned r ->
       sched = [0; 0; 0]%nat /\ r = halves_report.
Proof.
  do 9 (split; [vm_compute; reflexivity|]).
  intros sched r. unfold main.
  change (process_args initial_globals halves_args false)
    with (Proceed halves_globals). cbv iota beta.
  destruct sched as [|[|t1] [|[|t2] [|[|t3] [|[|t4] rest]]]];
    try (vm_compute; congruence).
  all: try (cbn; destruct (exec _ _ _ _) as [[? ?]|]; cbn; congruence).
  vm_compute. intros [= <-]. done.
Qed.

(** ** Termination of the batch loops *)

Lemma sum_list_with_insert {A} (f : A -> nat) (l : list A) (i : nat) (x y : A) :
  l !! i = Some x ->
  (sum_list_with f (<[i:=y]> l) + f x = sum_list_with f l + f y)%nat.
Proof.
  revert i. induction l as [|z l IH]; intros [|i]; simpl; try done.
  - intros [= ->]. lia.
  - intros H. apply IH in H. lia.
Qed.

(** A list with an element that fails a test has fewer elements that pass
    it than elements. *)
Lemma sum_list_with_bool_lt {A} (f : A -> bool) (l : list A) (i : nat) (x : A) :
  l !! i = Some x -> f x = false ->
  (sum_list_with (λ y, if f y then 1 else 0) l < length l)%nat.
Proof.
  assert (Hle : forall k : list A,
             (sum_list_with (λ y, if f y then 1 else 0) k <= length k)%nat).
  { induction k as [|z k IHk]; cbn; [done|]. destruct (f z); lia. }
  revert i. induction l as [|z l IH]; intros [|i]; cbn; try done.
  - intros [= ->] ->. specialize (Hle l). lia.
  - intros H Hx. specialize (IH _ H Hx). destruct (f z); lia.
Qed.

(** If not all threads have left their loops, one is still in it. *)
Lemma all_exited_false (s : state) :
  all_exited s = false ->
  exists tid th, threads s !! tid = Some th /\ exited th = false.
Proof.
  unfold all_exited. induction (threads s) as [|th l IH]; cbn; [done|].
  destruct (exited th) eqn:E; cbn.
  - intros H. destruct (IH H) as (tid & th' & ? & ?). by exists (S tid), th'.
  - intros _. by exists 0%nat, th.
Qed.

Section Cap.

Context (g : globals).
Hypothesis maxtrials_exact : 1 <= maxtrials g < 2 ^ 53.

(** Under the cap's bound the second test of [is_converged] compares the
    integers. *)
Lemma oracle_cap (a : shared) :
  0 <= all_ntrials a <= LONG_MAX ->
  maxtrials g < all_ntrials a -> oracle g a = true.
Proof.
  intros Hn Hlt. unfold oracle. rewrite is_converged_unfold.
  apply orb_true_iff. right. unfold cap_exceeded.
  rewrite of_long_ltb by (unfold LONG_MIN; lia). by apply Z.ltb_lt.
Qed.

Lemma oracle_false (a : shared) :
  0 <= all_ntrials a <= LONG_MAX ->
  oracle g a = false -> all_ntrials a <= maxtrials g.
Proof.
  intros Hn Hf. destruct (Z_le_gt_dec (all_ntrials a) (maxtrials g)); [done|].
  rewrite oracle_cap in Hf by lia. done.
Qed.

End Cap.

(** Each thread of a fresh team has three steps to its first merge. *)
Lemma rank_fresh_team (n : nat) :
  sum_list_with rank (replicate n fresh_thread) = (3 * n)%nat.
Proof. induction n as [|n IH]; cbn; [done|]. rewrite IH. lia. Qed.

Section Termination.

Context (g : globals) (deviates : nat -> nat -> float) (nthreads : nat).
Hypothesis nbatch_positive : 1 <= nbatch g.
Hypothesis maxtrials_exact : 1 <= maxtrials g < 2 ^ 53.
Hypothesis count_fits :
  maxtrials g + Z.of_nat nthreads * nbatch g <= LONG_MAX.

(** No more threads have left their loops than the team has. *)
Lemma exited_count_le (s : state) :
  (exited_count s <= length (threads s))%nat.
Proof.
  unfold exited_count. induction (threads s) as [|th l IH]; cbn; [done|].
  destruct (exited th); lia.
Qed.

(** The bounds of [capped] hold at the start, and every step keeps
    them. *)
Lemma capped_init : capped g nthreads [] (init nthreads).
Proof.
  split; [apply accounted_init|cbn; nia|]. intros tid th _. cbn.
  destruct (exited th); lia.
Qed.

Lemma capped_step (log : list commit) (s s' : state) (tid : nat) :
  capped g nthreads log s ->
  step g deviates s tid = Some s' ->
  capped g nthreads (log ++ committed s tid) s'.
Proof.
  intros [Hacc Hcap Hbatches] Hstep.
  pose proof (accounted_step _ _ _ _ _ _ _ Hacc Hstep) as Hacc'.
  destruct Hacc as [Hteam Htn Hunset Htids Hn HX HX2].
  apply step_Some in Hstep as (th & th' & Hth & Hthreads & Hkind).
  pose proof (sum_list_with_insert (λ th, if exited th then 1 else 0)%nat
                _ _ _ th' Hth) as Hcount.
  rewrite <- Hthreads in Hcount. fold (exited_count s') in Hcount.
  fold (exited_count s) in Hcount.
  pose proof (Hbatches _ _ Hth) as Hmine.
  assert (Hothers : forall i thi,
             i <> tid -> threads s' !! i = Some thi ->
             threads s !! i = Some thi).
  { intros i thi Hi. rewrite Hthreads. by rewrite list_lookup_insert_ne. }
  assert (Hself : forall thi, threads s' !! tid = Some thi -> thi = th').
  { intros thi. rewrite Hthreads, list_lookup_insert_eq
      by (by eapply lookup_lt_Some). congruence. }
  rewrite (committed_merge _ _ _ Hth) in *.
  destruct Hkind as [[Hpc Henter]|[(Hpc & Hsh & Hbatch)|[Hpc Hmerge]]];
    rewrite Hpc in *.
  - (* first lines *)
    injection Henter as Hsh Hth'. rewrite app_nil_r in *.
    assert (exited th = false) as Eth by (unfold exited; by rewrite Hpc).
    assert (exited th' = false) as Eth' by (by rewrite <- Hth').
    rewrite Eth, Eth' in *.
    split; [done| |].
    + rewrite <- Hsh. cbn.
      replace (exited_count s') with (exited_count s) by lia. done.
    + intros i thi Hi. destruct (decide (i = tid)) as [->|Hne].
      * apply Hself in Hi as ->. by rewrite Eth'.
      * eauto.
  - (* a batch *)
    apply run_batch_Some in Hbatch as (tn & Etn & Hth').
    rewrite app_nil_r in *.
    assert (exited th = false) as Eth by (unfold exited; by rewrite Hpc).
    assert (exited th' = false) as Eth' by (by rewrite Hth').
    rewrite Eth, Eth' in *.
    split; [done| |].
    + rewrite Hsh. replace (exited_count s') with (exited_count s) by lia.
      done.
    + intros i thi Hi. destruct (decide (i = tid)) as [->|Hne].
      * apply Hself in Hi as ->. by rewrite Eth'.
      * eauto.
  - (* a merge *)
    apply merge_Some in Hmerge
      as (tn & Etn & Hfit & Ha' & Hflag & Hpc' & _).
    assert (tn = nbatch g) as ->
      by (unfold tnbatch_ok in Htn; by rewrite Etn in Htn).
    assert (exited th = false) as Eth by (unfold exited; by rewrite Hpc).
    rewrite Eth in *.
    unfold in_long, LONG_MIN in Hfit.
    apply andb_true_iff in Hfit as [_ Hfit%Z.leb_le].
    assert (Hn' : all_ntrials (sh s') = all_ntrials (sh s) + nbatch g)
      by (by rewrite Ha').
    assert (Hlen : all_ntrials (sh s')
                   = (Z.of_nat (length log) + 1) * nbatch g) by lia.
    pose proof (batches_run_le log tid) as Hle.
    assert (Hrun : forall i,
               batches_run (log ++ [(tid, (sum_X th, sum_X2 th))]) i
               = (batches_run log i + if decide (tid = i) then 1 else 0)%nat).
    { intros i. by rewrite batches_run_snoc. }
    destruct (done_flag th') eqn:Edone.
    + (* the thread leaves its loop *)
      assert (exited th' = true) as Eth' by (unfold exited; by rewrite Hpc').
      rewrite Eth' in *.
      split; [done| |].
      * rewrite Hn'. replace (exited_count s') with (S (exited_count s)) by lia.
        lia.
      * intros i thi Hi. rewrite Hrun.
        destruct (decide (tid = i)) as [<-|Hne].
        -- apply Hself in Hi as ->. rewrite Eth'. lia.
        -- rewrite Nat.add_0_r. eauto.
    + (* both checks failed: the count is still within the cap *)
      assert (exited th' = false) as Eth' by (unfold exited; by rewrite Hpc').
      rewrite Eth' in *.
      symmetry in Hflag. apply orb_false_iff in Hflag as [_ Hpost].
      apply oracle_false in Hpost; [|done|lia].
      split; [done| |].
      * replace (exited_count s') with (exited_count s) by lia. nia.
      * intros i thi Hi. rewrite Hrun.
        destruct (decide (tid = i)) as [<-|Hne].
        -- apply Hself in Hi as ->. rewrite Eth'. nia.
        -- rewrite Nat.add_0_r. eauto.
Qed.

Lemma capped_exec (sched : list nat) (log : list commit) (s : state) :
  exec g deviates sched (init nthreads) = Some (log, s) ->
  capped g nthreads log s.
Proof.
  apply (exec_invariant g deviates (capped g nthreads)).
  - apply capped_init.
  - intros. by eapply capped_step.
Qed.

(** A thread still in its loop can take its next step: [tnbatch] is
    assigned by then, and the count has room for one more batch. *)
Lemma capped_progress (log : list commit) (s : state) (tid : nat)
    (th : thread) :
  capped g nthreads log s ->
  threads s !! tid = Some th -> pc th <> Exited ->
  exists s', step g deviates s tid = Some s'.
Proof.
  intros [[Hteam Htn Hunset Htids Hn HX HX2] Hcap _] Hth Hpc.
  assert (Htnbatch : pc th <> AtStart -> tnbatch (sh s) = Some (nbatch g)).
  { intros Hstart. unfold tnbatch_ok in Htn.
    destruct (tnbatch (sh s)) as [v|]; [by rewrite Htn|].
    by pose proof (Forall_lookup_1 _ _ _ _ Htn Hth). }
  unfold step. rewrite Hth. cbn.
  destruct (pc th) eqn:Epc; [by eauto| | |done].
  - unfold run_batch. rewrite Htnbatch by done. cbn.
    destruct (trials _ _ _ _ _) as [[sx sx2] c]. cbn. eauto.
  - unfold merge. rewrite Htnbatch by done. cbn.
    assert (exited th = false) as Eth by (unfold exited; by rewrite Epc).
    pose proof (sum_list_with_bool_lt exited _ _ _ Hth Eth) as Hlt.
    fold (exited_count s) in Hlt. rewrite Hteam in Hlt.
    replace (in_long (all_ntrials (sh s) + nbatch g)) with true; cbn; [eauto|].
    symmetry. unfold in_long, LONG_MIN. apply andb_true_iff.
    split; [apply Z.leb_le; lia|apply Z.leb_le; nia].
Qed.

(** Every step decreases the potential. *)
Lemma potential_step (log : list commit) (s s' : state) (tid : nat) :
  capped g nthreads log s ->
  step g deviates s tid = Some s' ->
  potential g nthreads s' < potential g nthreads s.
Proof.
  intros [[Hteam Htn Hunset Htids Hn HX HX2] Hcap _] Hstep.
  apply step_Some in Hstep as (th & th' & Hth & Hthreads & Hkind).
  pose proof (sum_list_with_insert rank _ _ _ th' Hth) as Hrank.
  rewrite <- Hthreads in Hrank. unfold potential.
  destruct Hkind as [[Hpc Henter]|[(Hpc & Hsh & Hbatch)|[Hpc Hmerge]]].
  - injection Henter as Hsh Hth'. rewrite <- Hsh. cbn.
    unfold rank in Hrank at 2 4. rewrite Hpc, <- Hth' in Hrank. cbn in Hrank.
    lia.
  - apply run_batch_Some in Hbatch as (tn & _ & Hth'). rewrite Hsh.
    unfold rank in Hrank at 2 4. rewrite Hpc, Hth' in Hrank. cbn in Hrank.
    lia.
  - apply merge_Some in Hmerge as (tn & Etn & _ & Ha' & _ & Hpc' & _).
    assert (tn = nbatch g) as ->
      by (unfold tnbatch_ok in Htn; by rewrite Etn in Htn).
    rewrite Ha'. cbn.
    unfold rank in Hrank at 2 4. rewrite Hpc, Hpc' in Hrank.
    destruct (done_flag th'); lia.
Qed.

(** The potential is never negative. *)
Lemma potential_nonneg (log : list commit) (s : state) :
  capped g nthreads log s -> 0 <= potential g nthreads s.
Proof.
  intros [[Hteam _ _ _ _ _ _] Hcap _]. unfold potential.
  pose proof (exited_count_le s). rewrite Hteam in *. nia.
Qed.

(** A run is no longer than the potential it started with. *)
Lemma exec_length (sched : list nat) (log : list commit) (s : state) :
  exec g deviates sched (init nthreads) = Some (log, s) ->
  potential g nthreads s + Z.of_nat (length sched)
  <= potential g nthreads (init nthreads).
Proof.
  revert log s. induction sched as [|tid sched IH] using rev_ind;
    intros log s.
  - intros [= <- <-]. cbn [length]. lia.
  - intros H. apply exec_snoc in H as (log1 & s1 & H1 & Hs & ->).
    pose proof (potential_step _ _ _ _ (capped_exec _ _ _ H1) Hs).
    specialize (IH _ _ H1). rewrite length_app. cbn [length]. lia.
Qed.

(** The potential at the start. *)
Lemma potential_init :
  potential g nthreads (init nthreads)
  = 3 * Z.of_nat nthreads
    + 2 * (maxtrials g + Z.of_nat nthreads * nbatch g).
Proof.
  unfold potential. cbn. rewrite rank_fresh_team. lia.
Qed.

(** Every run can be continued until all threads have left their loops. *)
Lemma capped_completes (fuel : nat) (log : list commit) (s : state) :
  capped g nthreads log s ->
  potential g nthreads s < Z.of_nat fuel ->
  can_finish g deviates s.
Proof.
  unfold can_finish.
  revert log s. induction fuel as [|fuel IH]; intros log s Hcapped Hfuel.
  - pose proof (potential_nonneg _ _ Hcapped). lia.
  - destruct (all_exited s) eqn:Eall; [by exists [], [], s|].
    apply all_exited_false in Eall as (tid & th & Hth & Eth).
    destruct (capped_progress _ _ _ _ Hcapped Hth) as [s1 Hs1].
    { intros Hpc. unfold exited in Eth. by rewrite Hpc in Eth. }
    pose proof (potential_step _ _ _ _ Hcapped Hs1).
    destruct (IH _ s1 (capped_step _ _ _ _ Hcapped Hs1))
      as (sched' & log' & s' & Hexec & Hall); [lia|].
    exists (tid :: sched'), (committed s tid ++ log'), s'.
    split; [|done]. cbn. rewrite Hs1. cbn. rewrite Hexec. done.
Qed.

(** C10, as amended.  With a batch size of at least one, a cap of at least
    one and below [2^53], and room in a [long] for the cap and one batch
    per thread: in every run of the region each thread has merged at most
    [maxtrials / nbatch + 1] batches and the run has a bounded number of
    steps; once the count is above the cap the oracle returns true; a
    thread still in its loop can always take its next step, a merge adding
    exactly one batch size to the count; and the run can be continued until
    every thread has left its loop. *)
Theorem capped_loops_terminate (sched : list nat) (log : list commit)
    (s : state) :
  exec g deviates sched (init nthreads) = Some (log, s) ->
  (forall tid th,
      threads s !! tid = Some th ->
      Z.of_nat (batches_run log tid) * nbatch g <= maxtrials g + nbatch g)
  /\ Z.of_nat (length sched)
     <= 3 * Z.of_nat nthreads
        + 2 * (maxtrials g + Z.of_nat nthreads * nbatch g)
  /\ (maxtrials g < all_ntrials (sh s) -> oracle g (sh s) = true)
  /\ (forall tid th,
        threads s !! tid = Some th -> pc th <> Exited ->
        exists s',
          step g deviates s tid = Some s'
          /\ (pc th = AtMerge ->
              all_ntrials (sh s') = all_ntrials (sh s) + nbatch g))
  /\ can_finish g deviates s.
Proof.
  intros Hexec.
  pose proof (capped_exec _ _ _ Hexec) as Hcapped.
  pose proof Hcapped as [[Hteam Htn Hunset Htids Hn HX HX2] Hcap Hbatches].
  pose proof (exited_count_le s) as Hec. rewrite Hteam in Hec.
  split; [|split; [|split; [|split]]].
  - intros tid th Hth. specialize (Hbatches _ _ Hth).
    destruct (exited th); lia.
  - pose proof (exec_length _ _ _ Hexec) as Hlen.
    rewrite potential_init in Hlen.
    pose proof (potential_nonneg _ _ Hcapped). lia.
  - intros Hlt. apply oracle_cap; [done| |done]. nia.
  - intros tid th Hth Hpc.
    destruct (capped_progress _ _ _ _ Hcapped Hth Hpc) as [s' Hs'].
    exists s'. split; [done|]. intros Hmerge.
    apply step_Some in Hs' as (th0 & th' & Hth0 & _ & Hkind).
    rewrite Hth in Hth0. injection Hth0 as <-.
    destruct Hkind as [[? _]|[(? & _)|[_ Hm']]]; [congruence..|].
    apply merge_Some in Hm' as (tn & Etn & _ & -> & _).
    unfold tnbatch_ok in Htn. rewrite Etn in Htn. by rewrite Htn.
  - apply (capped_completes (S (Z.to_nat (potential g nthreads s)))
             log s Hcapped). lia.
Qed.

End Termination.

(** C10, as amended, for one thread with a cap of 10 and batches of 5. *)
Lemma capped_loops_terminate_witness :
  1 <= nbatch halves_globals
  /\ 1 <= maxtrials halves_globals < 2 ^ 53
  /\ maxtrials halves_globals + Z.of_nat 1 * nbatch halves_globals
     <= LONG_MAX
  /\ exec halves_globals halves [0; 0]%nat (init 1)
     = Some ([], halves_after_batch)
  /\ Z.of_nat (length [0; 0]%nat)
     <= 3 * Z.of_nat 1
        + 2 * (maxtrials halves_globals + Z.of_nat 1 * nbatch halves_globals)
  /\ can_finish halves_globals halves halves_after_batch.
Proof.
  assert (H1 : 1 <= nbatch halves_globals) by (cbn; lia).
  assert (H2 : 1 <= maxtrials halves_globals < 2 ^ 53) by (cbn; lia).
  assert (H3 : maxtrials halves_globals + Z.of_nat 1 * nbatch halves_globals
               <= LONG_MAX) by (unfold LONG_MAX; cbn; lia).
  pose proof (capped_loops_terminate halves_globals halves 1 H1 H2 H3
                [0; 0]%nat [] halves_after_batch eq_refl)
    as (_ & Hlen & _ & _ & Hfin).
  exact (conj H1 (conj H2 (conj H3 (conj eq_refl (conj Hlen Hfin))))).
Defined.

(** A batch of zero deviates has zero sums. *)
Lemma trials_zeros (tid : nat) (k cursor : nat) :
  trials (zeros tid) k 0 0 cursor = (0%float, 0%float, (cursor + k)%nat).
Proof.
  revert cursor. induction k as [|k IH]; intros cursor; cbn.
  - by rewrite Nat.add_0_r.
  - change (0 + 0 * 0)%float with 0%float. change (0 + 0)%float with 0%float.
    rewrite IH. f_equal. lia.
Qed.

(** With every deviate zero the relative test never holds, and with the
    cap at [LONG_MAX] the count never passes it. *)
Lemma uncapped_oracle (a : shared) :
  all_sum_X a = 0%float -> all_sum_X2 a = 0%float ->
  LONG_MIN <= all_ntrials a <= LONG_MAX ->
  oracle uncapped_globals a = false.
Proof.
  intros HX HX2 Hn. unfold oracle. rewrite HX, HX2, is_converged_unfold.
  rewrite relative_error_zero_sums. cbn [orb]. unfold cap_exceeded.
  by apply of_long_le_max.
Qed.

(** So, with zero deviates and the cap at [LONG_MAX], the totals stay
    zero and no thread sets its flag. *)
Lemma uncapped_invariant (nthreads : nat) (sched : list nat)
    (log : list commit) (s : state) :
  exec uncapped_globals zeros sched (init nthreads) = Some (log, s) ->
  all_sum_X (sh s) = 0%float /\ all_sum_X2 (sh s) = 0%float
  /\ LONG_MIN <= all_ntrials (sh s) <= LONG_MAX
  /\ Forall (λ th, pc th <> Exited /\ done_flag th = false
                   /\ (pc th = AtMerge ->
                       sum_X th = 0%float /\ sum_X2 th = 0%float))
       (threads s).
Proof.
  apply (exec_invariant uncapped_globals zeros (λ _ s,
    all_sum_X (sh s) = 0%float /\ all_sum_X2 (sh s) = 0%float
    /\ LONG_MIN <= all_ntrials (sh s) <= LONG_MAX
    /\ Forall (λ th, pc th <> Exited /\ done_flag th = false
                     /\ (pc th = AtMerge ->
                         sum_X th = 0%float /\ sum_X2 th = 0%float))
         (threads s))).
  - cbn. repeat split; try done. by apply Forall_replicate.
  - clear. intros _ s tid s' (HX & HX2 & Hn & Hths) Hstep.
    apply step_Some in Hstep as (th & th' & Hth & Hthreads & Hkind).
    pose proof (Forall_lookup_1 _ _ _ _ Hths Hth) as (_ & Hflag & Hlocal).
    rewrite Hthreads.
    destruct Hkind as [[Hpc Henter]|[(Hpc & Hsh & Hbatch)|[Hpc Hmerge]]].
    + injection Henter as <- <-. cbn. repeat split; try done; try apply Hn.
      apply Forall_insert; [done|]. by cbn.
    + apply run_batch_Some in Hbatch as (tn & _ & ->). rewrite Hsh.
      rewrite !trials_zeros. repeat split; try done; try apply Hn.
      apply Forall_insert; [done|]. by cbn.
    + apply merge_Some in Hmerge
        as (tn & Etn & Hfit & Ha' & Hflag' & Hpc' & _).
      destruct (Hlocal Hpc) as [Hx Hx2].
      assert (Hn' : LONG_MIN <= all_ntrials (sh s') <= LONG_MAX).
      { rewrite Ha'. cbn. unfold in_long in Hfit.
        apply andb_true_iff in Hfit as [?%Z.leb_le ?%Z.leb_le]. lia. }
      assert (HX' : all_sum_X (sh s') = 0%float)
        by (rewrite Ha'; cbn; by rewrite HX, Hx).
      assert (HX2' : all_sum_X2 (sh s') = 0%float)
        by (rewrite Ha'; cbn; by rewrite HX2, Hx2).
      rewrite Hflag, !uncapped_oracle in Hflag' by done. cbn in Hflag'.
      rewrite Hflag' in Hpc'.
      repeat split; try done; try apply Hn'.
      apply Forall_insert; [done|]. rewrite Hpc'. done.
Qed.

(** C10 as stated fails for [-n 9223372036854775807] when every deviate is
    zero: the batch size and the cap are at least one, yet no thread ever
    leaves its loop.  The relative test is not-a-number at every merge, and
    the cap, [2^63] once converted to double, is never exceeded by a
    [long]; the loop runs until the count would overflow. *)
Lemma uncapped_never_exits :
  1 <= nbatch uncapped_globals
  /\ 1 <= maxtrials uncapped_globals
  /\ process_args initial_globals [Opt_n LONG_MAX] false
     = Proceed uncapped_globals
  /\ (~ exists sched log s tid th,
          exec uncapped_globals zeros sched (init 1) = Some (log, s)
          /\ threads s !! tid = Some th /\ pc th = Exited)
  /\ ~ can_finish uncapped_globals zeros (init 1).
Proof.
  split; [cbn; lia|]. split; [done|]. split; [reflexivity|]. split.
  - intros (sched & log & s & tid & th & Hexec & Hth & Hpc).
    apply uncapped_invariant in Hexec as (_ & _ & _ & Hths).
    by pose proof (Forall_lookup_1 _ _ _ _ Hths Hth) as (? & _).
  - intros (sched & log & s & Hexec & Hall).
    pose proof (accounted_exec _ _ _ _ _ _ Hexec) as [Hteam _ _ _ _ _ _].
    apply uncapped_invariant in Hexec as (_ & _ & _ & Hths).
    unfold all_exited in Hall.
    destruct (threads s) as [|th ths]; [done|].
    apply Forall_cons in Hths as [(Hpc & _) _].
    cbn in Hall. apply andb_true_iff in Hall as [Hex _].
    unfold exited in Hex. by destruct (pc th).
Qed.

(* ================================================================= *)
(** * Part IV: further properties of the code *)
(* ================================================================= *)

(** ** Argument processing *)

(** X1.  However [process_args] ends the program, it is by [exit(-1)]: the
    parent process sees status 255. *)
Theorem process_args_exits_255 (g : globals) (rets : list getopt_ret)
    (nonoption_left : bool) (status : Z) (message : string) :
  process_args g rets nonoption_left = Exit status message ->
  status = -1 /\ wait_status status = 255.
Proof.
  intros H. apply process_args_exit_status in H as ->. done.
Qed.

(** X1 for [-p <n> -n 0]. *)
Lemma process_args_exits_255_witness :
  process_args initial_globals [Opt_p; Opt_n 0] false
  = Exit (-1) ("maxtrials must be positive" ++ nl)
  /\ wait_status (-1) = 255.
Proof.
  exact (conj eq_refl
           (proj2 (process_args_exits_255 initial_globals [Opt_p; Opt_n 0]
                     false (-1) _ eq_refl))).
Defined.

(** X2.  When [process_args] returns on the initial values, the cap and the
    batch size are at least one, the tolerance is not negative, no
    non-option argument was left, and [getopt] reported no unknown option
    or missing argument. *)
Theorem process_args_accepts_valid (rets : list getopt_ret)
    (nonoption_left : bool) (g : globals) :
  process_args initial_globals rets nonoption_left = Proceed g ->
  1 <= maxtrials g /\ 1 <= nbatch g /\ (rtol g <? 0)%float = false
  /\ nonoption_left = false
  /\ forall c, Opt_unknown c ∉ rets.
Proof.
  intros H. pose proof (process_args_proceed _ _ _ _ H) as (Hn & Hb & Ht).
  split; [apply Hn; cbn; lia|]. split; [apply Hb; cbn; lia|].
  split; [by apply Ht|]. split.
  - destruct nonoption_left; [|done]. exfalso.
    clear -H. revert H. generalize initial_globals.
    induction rets as [|[|v|v|v|c] rest IH]; intros g0; cbn; try done.
    + apply IH.
    + destruct (v <? 0)%float; [done|apply IH].
    + destruct (v <? 1); [done|apply IH].
    + destruct (v <? 1); [done|apply IH].
    + by destruct (takes_argument c).
  - intros c Hin.
    destruct (process_args_rejects initial_globals rets nonoption_left
                (Opt_unknown c) I Hin) as [m Hm]. congruence.
Qed.

(** X2 for [-t 1.0 -n 10 -b 5]. *)
Lemma process_args_accepts_valid_witness :
  process_args initial_globals halves_args false = Proceed halves_globals
  /\ 1 <= maxtrials halves_globals /\ 1 <= nbatch halves_globals.
Proof.
  destruct (process_args_accepts_valid halves_args false halves_globals
              eq_refl) as (H1 & H2 & _).
  exact (conj eq_refl (conj H1 H2)).
Defined.

(** X3.  When [process_args] returns, the globals are the ones it started
    from with the options' values assigned in the order of the command
    line: of two values for the same option the later one stays. *)
Theorem process_args_assigns_in_order (g g' : globals)
    (rets : list getopt_ret) (nonoption_left : bool) :
  process_args g rets nonoption_left = Proceed g' ->
  g' = fold_left assign rets g.
Proof.
  revert g. induction rets as [|[|v|v|v|c] rest IH]; intros g; cbn.
  - destruct nonoption_left; congruence.
  - apply IH.
  - destruct (v <? 0)%float; [done|apply IH].
  - destruct (v <? 1); [done|apply IH].
  - destruct (v <? 1); [done|apply IH].
  - by destruct (takes_argument c).
Qed.

(** X3 for [-b 7 -n 10 -b 5]. *)
Lemma process_args_assigns_in_order_witness :
  process_args initial_globals [Opt_b 7; Opt_n 10; Opt_b 5] false
  = Proceed {| rtol := rtol initial_globals; maxtrials := 10; nbatch := 5 |}
  /\ {| rtol := rtol initial_globals; maxtrials := 10; nbatch := 5 |}
     = fold_left assign [Opt_b 7; Opt_n 10; Opt_b 5] initial_globals.
Proof.
  exact (conj eq_refl
           (process_args_assigns_in_order initial_globals _
              [Opt_b 7; Opt_n 10; Opt_b 5] false eq_refl)).
Defined.

(** X4.  Options are processed from left to right: a command line in two
    parts ends at the first part's [exit] if there is one, and otherwise
    continues on the second part with the globals the first part left; the
    test for non-option arguments comes last. *)
Theorem process_args_app (g : globals) (rets1 rets2 : list getopt_ret)
    (nonoption_left : bool) :
  process_args g (rets1 ++ rets2) nonoption_left
  = match process_args g rets1 false with
    | Exit status message => Exit status message
    | Proceed g1 => process_args g1 rets2 nonoption_left
    end.
Proof.
  revert g. induction rets1 as [|[|v|v|v|c] rest IH]; intros g; cbn.
  - done.
  - apply IH.
  - destruct (v <? 0)%float; [done|apply IH].
  - destruct (v <? 1); [done|apply IH].
  - destruct (v <? 1); [done|apply IH].
  - by destruct (takes_argument c).
Qed.

(** The case of [-p] only breaks out of the switch. *)
Lemma process_args_skips_p (g : globals) (rets : list getopt_ret)
    (nonoption_left : bool) :
  process_args g (List.filter (λ r, negb (is_Opt_p r)) rets) nonoption_left
  = process_args g rets nonoption_left.
Proof.
  revert g. induction rets as [|[|v|v|v|c] rest IH]; intros g; cbn.
  - done.
  - apply IH.
  - destruct (v <? 0)%float; [done|apply IH].
  - destruct (v <? 1); [done|apply IH].
  - destruct (v <? 1); [done|apply IH].
  - done.
Qed.

(** X5.  The option [-p] has no effect: [main] does the same with and
    without it, for every team, deviates and schedule. *)
Theorem option_p_has_no_effect_on_main (rets : list getopt_ret)
    (nonoption_left : bool) (nthreads : nat)
    (deviates : nat -> nat -> float) (sched : list nat) :
  main (List.filter (λ r, negb (is_Opt_p r)) rets) nonoption_left nthreads
    deviates sched
  = main rets nonoption_left nthreads deviates sched.
Proof. unfold main. by rewrite process_args_skips_p. Qed.

(** ** The convergence test *)

(** X6.  With a count of trials that is not above the cap, and the cap
    below [2^53], the cap test is false and [is_converged] returns what the
    relative test returns. *)
Theorem below_cap_relative_test_decides (sum_X sum_X2 rtol : float)
    (ntrials maxtrials : Z) :
  0 <= ntrials <= maxtrials -> maxtrials < 2 ^ 53 ->
  is_converged sum_X sum_X2 (of_long ntrials) rtol maxtrials
  = relative_error_met sum_X sum_X2 (of_long ntrials) rtol.
Proof.
  intros Hn Hm. rewrite is_converged_unfold. unfold cap_exceeded.
  rewrite of_long_ltb by (unfold LONG_MIN, LONG_MAX; lia).
  replace (maxtrials <? ntrials) with false by (symmetry; apply Z.ltb_ge; lia).
  apply orb_false_r.
Qed.

(** X6 for five trials under a cap of ten. *)
Lemma below_cap_relative_test_decides_witness :
  0 <= 5 <= 10 /\ 10 < 2 ^ 53
  /\ is_converged 2.5 1.25 (of_long 5) 1 10
     = relative_error_met 2.5 1.25 (of_long 5) 1.
Proof.
  assert (H1 : 0 <= 5 <= 10) by lia.
  assert (H2 : 10 < 2 ^ 53) by lia.
  exact (conj H1 (conj H2
           (below_cap_relative_test_decides 2.5 1.25 1 5 10 H1 H2))).
Defined.

(** A double and its opposite have the same square. *)
Lemma mul_opp_opp (x : float) : (- x * - x)%float = (x * x)%float.
Proof.
  apply Prim2SF_inj. rewrite !mul_spec, opp_spec.
  destruct (Prim2SF x) as [[]|[]| |[] m e]; reflexivity.
Qed.

(** X7.  The tolerance enters the test through its square only: the
    opposite tolerance gives the same result. *)
Theorem tolerance_sign_is_ignored (sum_X sum_X2 ntrials rtol : float)
    (maxtrials : Z) :
  is_converged sum_X sum_X2 ntrials (- rtol) maxtrials
  = is_converged sum_X sum_X2 ntrials rtol maxtrials.
Proof.
  rewrite !is_converged_unfold. unfold relative_error_met.
  by rewrite mul_opp_opp.
Qed.

(** Not-a-number propagates through the operations and fails every
    comparison. *)
Lemma SFltb_nan_l (y : spec_float) : SFltb S754_nan y = false.
Proof. reflexivity. Qed.

Lemma SFltb_nan_r (x : spec_float) : SFltb x S754_nan = false.
Proof. by destruct x. Qed.

Lemma SFdiv_nan_l (y : spec_float) : SF64div S754_nan y = S754_nan.
Proof. reflexivity. Qed.

Lemma SFdiv_nan_r (x : spec_float) : SF64div x S754_nan = S754_nan.
Proof. by destruct x. Qed.

Lemma SFmul_nan_l (y : spec_float) : SF64mul S754_nan y = S754_nan.
Proof. reflexivity. Qed.

Lemma SFsub_nan_l (y : spec_float) : SF64sub S754_nan y = S754_nan.
Proof. reflexivity. Qed.

Lemma SFsub_nan_r (x : spec_float) : SF64sub x S754_nan = S754_nan.
Proof. by destruct x. Qed.

(** X8.  If one of the sums, the count or the tolerance is not a number,
    the relative test fails and [is_converged] returns the cap test alone;
    if it is the count, [is_converged] returns false. *)
Theorem nan_leaves_only_the_cap (sum_X sum_X2 ntrials rtol : float)
    (maxtrials : Z) :
  sum_X = nan \/ sum_X2 = nan \/ ntrials = nan \/ rtol = nan ->
  is_converged sum_X sum_X2 ntrials rtol maxtrials
  = cap_exceeded ntrials maxtrials
  /\ (ntrials = nan ->
      is_converged sum_X sum_X2 ntrials rtol maxtrials = false).
Proof.
  intros H.
  assert (Hrel : relative_error_met sum_X sum_X2 ntrials rtol = false).
  { unfold relative_error_met, variance, mean_of_squares, mean.
    rewrite ltb_spec, !div_spec, sub_spec, !mul_spec, !div_spec.
    destruct H as [-> | [-> | [-> | ->]]]; change (Prim2SF nan) with S754_nan.
    all: rewrite ?SFdiv_nan_l, ?SFdiv_nan_r, ?SFmul_nan_l, ?SFsub_nan_l,
           ?SFsub_nan_r, ?SFdiv_nan_l, ?SFdiv_nan_r;
         first [reflexivity|apply SFltb_nan_r]. }
  rewrite is_converged_unfold, Hrel. split; [done|].
  intros ->. unfold cap_exceeded. rewrite ltb_spec.
  change (Prim2SF nan) with S754_nan. cbn [orb]. apply SFltb_nan_r.
Qed.

(** X8 for a sum that is not a number. *)
Lemma nan_leaves_only_the_cap_witness :
  (nan = nan \/ 1.25%float = nan \/ of_long 5 = nan \/ 1%float = nan)
  /\ is_converged nan 1.25 (of_long 5) 1 10 = false.
Proof.
  assert (H : nan = nan \/ 1.25%float = nan \/ of_long 5 = nan
              \/ 1%float = nan) by (left; reflexivity).
  destruct (nan_leaves_only_the_cap nan 1.25 (of_long 5) 1 10 H) as [E _].
  exact (conj H E).
Defined.

(** A non-negative [long] does not convert to a negative double. *)
Lemma of_long_nonneg (m : Z) :
  0 <= m <= LONG_MAX -> (of_long m <? of_long 0)%float = false.
Proof.
  intros Hm. rewrite ltb_spec, !Prim2SF_of_long
    by (unfold LONG_MIN, LONG_MAX in *; lia).
  unfold LONG_MAX in Hm.
  destruct m as [|p|p]; [done| |lia]. cbn [binary_normalize].
  destruct (binary_round_int false p) as (mm & em & -> & _);
    [apply digits2_pos_le; lia|done].
Qed.

(** X9.  With no trials [is_converged] returns false, whatever the sums and
    the tolerance, for every cap that is not negative: the division by a
    zero count makes the relative error not a number. *)
Theorem no_trials_not_converged (sum_X sum_X2 rtol : float)
    (maxtrials : Z) :
  0 <= maxtrials <= LONG_MAX ->
  is_converged sum_X sum_X2 (of_long 0) rtol maxtrials = false.
Proof.
  intros Hm. rewrite is_converged_unfold. apply orb_false_iff. split.
  - unfold relative_error_met, variance, mean_of_squares, mean.
    rewrite ltb_spec, !div_spec, sub_spec, !mul_spec, !div_spec.
    change (Prim2SF (of_long 0)) with (S754_zero false).
    destruct (Prim2SF sum_X) as [[]|[]| |[] m e];
      destruct (Prim2SF sum_X2) as [[]|[]| |[] m2 e2]; reflexivity.
  - unfold cap_exceeded. by apply of_long_nonneg.
Qed.

(** X9 for sums of 3 and -2 and an infinite tolerance. *)
Lemma no_trials_not_converged_witness :
  0 <= 10 <= LONG_MAX
  /\ is_converged 3 (-2) (of_long 0) infinity 10 = false.
Proof.
  assert (H : 0 <= 10 <= LONG_MAX) by (unfold LONG_MAX; lia).
  exact (conj H (no_trials_not_converged 3 (-2) infinity 10 H)).
Defined.

(** ** A variance that rounding makes negative *)

(** A negative double is below a positive one, and has no square root. *)
Lemma ltb_negative_positive (q r : float) :
  (q <? 0)%float = true -> (0 <? r)%float = true -> (q <? r)%float = true.
Proof.
  rewrite !ltb_spec. change (Prim2SF 0) with (S754_zero false).
  destruct (Prim2SF q) as [[]|[]| |[] m e]; try done;
    destruct (Prim2SF r) as [[]|[]| |[] m' e']; done.
Qed.

Lemma sqrt_negative (x : float) :
  (x <? 0)%float = true -> PrimFloat.sqrt x = nan.
Proof.
  rewrite ltb_spec. change (Prim2SF 0) with (S754_zero false). intros H.
  apply Prim2SF_inj. rewrite sqrt_spec.
  destruct (Prim2SF x) as [[]|[]| |[] m e]; done.
Qed.

(** X10.  When rounding makes the computed relative error negative, the
    relative test holds for every tolerance whose square is positive, and
    [is_converged] returns true. *)
Theorem negative_variance_converges (sum_X sum_X2 ntrials rtol : float)
    (maxtrials : Z) :
  (variance sum_X sum_X2 ntrials
   / (mean sum_X ntrials * mean sum_X ntrials) / ntrials <? 0)%float = true ->
  (0 <? rtol * rtol)%float = true ->
  is_converged sum_X sum_X2 ntrials rtol maxtrials = true.
Proof.
  intros Hneg Hpos. rewrite is_converged_unfold. apply orb_true_iff. left.
  unfold relative_error_met. by apply ltb_negative_positive.
Qed.

(** X10 for 500 deviates of [0.2] and the initial tolerance. *)
Lemma negative_variance_converges_witness :
  (variance (all_sum_X fifths_totals) (all_sum_X2 fifths_totals)
     (of_long 500)
   / (mean (all_sum_X fifths_totals) (of_long 500)
      * mean (all_sum_X fifths_totals) (of_long 500)) / of_long 500
   <? 0)%float = true
  /\ (0 <? rtol initial_globals * rtol initial_globals)%float = true
  /\ oracle initial_globals fifths_totals = true.
Proof.
  assert (H1 : (variance (all_sum_X fifths_totals)
                  (all_sum_X2 fifths_totals) (of_long 500)
                / (mean (all_sum_X fifths_totals) (of_long 500)
                   * mean (all_sum_X fifths_totals) (of_long 500))
                / of_long 500 <? 0)%float = true)
    by (vm_compute; reflexivity).
  assert (H2 : (0 <? rtol initial_globals * rtol initial_globals)%float
               = true) by (vm_compute; reflexivity).
  exact (conj H1 (conj H2
           (negative_variance_converges (all_sum_X fifths_totals)
              (all_sum_X2 fifths_totals) (of_long 500)
              (rtol initial_globals) (maxtrials initial_globals) H1 H2))).
Defined.

(** X11.  When the computed variance over the count is negative, the
    standard error [main] reports is not a number. *)
Theorem negative_variance_reports_nan (a : shared) :
  (variance (all_sum_X a) (all_sum_X2 a) (of_long (all_ntrials a))
   / of_long (all_ntrials a) <? 0)%float = true ->
  stdX (summarize a) = nan.
Proof. intros H. unfold summarize. cbn [stdX]. by apply sqrt_negative. Qed.

(** X11 for the run without options of one thread on deviates of [0.2]:
    the thread leaves its loop after its first batch and [main] reports an
    error that is not a number. *)
Lemma negative_variance_reports_nan_witness :
  exec initial_globals fifths [0; 0; 0]%nat (init 1)
  = Some ([(0%nat, (all_sum_X fifths_totals, all_sum_X2 fifths_totals))],
          {| sh := fifths_totals;
             threads := [{| pc := Exited; done_flag := true;
                            sum_X := all_sum_X fifths_totals;
                            sum_X2 := all_sum_X2 fifths_totals;
                            drawn := 500 |}] |})
  /\ main [] false 1 fifths [0; 0; 0]%nat
     = Returned (summarize fifths_totals)
  /\ stdX (summarize fifths_totals) = nan.
Proof.
  assert (H : (variance (all_sum_X fifths_totals)
                 (all_sum_X2 fifths_totals)
                 (of_long (all_ntrials fifths_totals))
               / of_long (all_ntrials fifths_totals) <? 0)%float = true)
    by (vm_compute; reflexivity).
  split; [vm_compute; reflexivity|].
  split; [vm_compute; reflexivity|].
  exact (negative_variance_reports_nan fifths_totals H).
Defined.

(** ** Batches and deviates *)

(** A batch of [n] trials advances the generator by [n]. *)
Lemma trials_cursor (draw : nat -> float) (n : nat) (sx sx2 : float)
    (c : nat) :
  (trials draw n sx sx2 c).2 = (c + n)%nat.
Proof.
  revert sx sx2 c. induction n as [|n IH]; intros sx sx2 c; cbn.
  - lia.
  - rewrite IH. lia.
Qed.

(** X12.  A batch of [n] trials reads the [n] deviates from the cursor on
    and no other: two generators that agree on them give the same sums,
    and the cursor ends [n] further. *)
Theorem batch_reads_its_block_only (draw1 draw2 : nat -> float) (n : nat)
    (sum_X sum_X2 : float) (cursor : nat) :
  (forall i, (cursor <= i < cursor + n)%nat -> draw1 i = draw2 i) ->
  trials draw1 n sum_X sum_X2 cursor = trials draw2 n sum_X sum_X2 cursor
  /\ (trials draw1 n sum_X sum_X2 cursor).2 = (cursor + n)%nat.
Proof.
  intros Hagree. split; [|apply trials_cursor].
  revert sum_X sum_X2 cursor Hagree.
  induction n as [|n IH]; intros sx sx2 c Hagree; cbn; [done|].
  rewrite (Hagree c) by lia. apply IH. intros i Hi. apply Hagree. lia.
Qed.

(** X12 for two generators that differ from the sixth deviate on. *)
Lemma batch_reads_its_block_only_witness :
  (forall i, (0 <= i < 0 + 5)%nat ->
             halves 0%nat i = (λ j, if (j <? 5)%nat then 0.5 else 1)%float i)
  /\ trials (halves 0%nat) 5 0 0 0
     = trials (λ j, if (j <? 5)%nat then 0.5 else 1)%float 5 0 0 0.
Proof.
  assert (H : forall i, (0 <= i < 0 + 5)%nat ->
                halves 0%nat i
                = (λ j, if (j <? 5)%nat then 0.5 else 1)%float i).
  { intros i Hi. cbv beta. unfold halves.
    destruct (Nat.ltb_spec i 5) as [_|Hge]; [reflexivity|lia]. }
  destruct (batch_reads_its_block_only (halves 0%nat)
              (λ j, if (j <? 5)%nat then 0.5 else 1)%float 5 0 0 0 H)
    as [E _].
  exact (conj H E).
Defined.

Section Trace.

Context (g : globals) (deviates : nat -> nat -> float) (nthreads : nat).

Lemma traced_init : traced g deviates nthreads [] (init nthreads).
Proof.
  split; [apply accounted_init| |].
  - intros tid th Hth. apply lookup_replicate in Hth as [-> _]. done.
  - intros i c Hc. done.
Qed.

Lemma traced_step (log : list commit) (s s' : state) (tid : nat) :
  traced g deviates nthreads log s ->
  step g deviates s tid = Some s' ->
  traced g deviates nthreads (log ++ committed s tid) s'.
Proof.
  intros [Hacc Hths Hlog] Hstep.
  pose proof (accounted_step _ _ _ _ _ _ _ Hacc Hstep) as Hacc'.
  destruct Hacc as [Hteam Htn _ _ _ _ _].
  apply step_Some in Hstep as (th & th' & Hth & Hthreads & Hkind).
  pose proof (Hths _ _ Hth) as Hmine. unfold thread_traced in Hmine.
  rewrite (committed_merge _ _ _ Hth) in *.
  assert (Hlookup : forall i thi,
             threads s' !! i = Some thi ->
             (i = tid /\ thi = th') \/ (i <> tid /\ threads s !! i = Some thi)).
  { intros i thi. rewrite Hthreads. destruct (decide (i = tid)) as [->|Hne].
    - rewrite list_lookup_insert_eq by (by eapply lookup_lt_Some).
      intros [= <-]. by left.
    - rewrite list_lookup_insert_ne by done. by right. }
  destruct Hkind as [[Hpc Henter]|[(Hpc & Hsh & Hbatch)|[Hpc Hmerge]]];
    rewrite Hpc in *.
  - (* first lines *)
    injection Henter as _ Hth'. rewrite app_nil_r in *.
    split; [done| |done].
    intros i thi Hi. apply Hlookup in Hi as [[-> ->]|[_ Hi]]; [|eauto].
    unfold thread_traced. rewrite <- Hth'. cbn. rewrite Hmine. done.
  - (* a batch *)
    apply run_batch_Some in Hbatch as (tn & Etn & Hth').
    assert (tn = nbatch g) as ->
      by (unfold tnbatch_ok in Htn; by rewrite Etn in Htn).
    rewrite app_nil_r in *. destruct Hmine as [Hflag Hdrawn].
    split; [done| |done].
    intros i thi Hi. apply Hlookup in Hi as [[-> ->]|[_ Hi]]; [|eauto].
    unfold thread_traced. rewrite Hth'. cbn.
    rewrite trials_cursor, Hdrawn. split; [done|]. split; [lia|].
    unfold block_sums.
    match goal with
    | |- context [trials ?d ?n ?x ?y ?c] =>
        destruct (trials d n x y c) as [[sx sx2] c']
    end. reflexivity.
  - (* a merge *)
    apply merge_Some in Hmerge
      as (tn & _ & _ & _ & Hflag' & Hpc' & HsX & HsX2 & Hdrawn').
    destruct Hmine as (Hflag & Hdrawn & Hsums).
    split; [done| |].
    + intros i thi Hi. unfold thread_traced.
      rewrite batches_run_snoc. cbn [fst].
      apply Hlookup in Hi as [[-> ->]|[Hne Hi]].
      * rewrite decide_True by done. rewrite Nat.add_1_r.
        rewrite Hpc', Hdrawn', Hdrawn.
        destruct (done_flag th'); repeat split; try done; clear; lia.
      * rewrite decide_False by done. rewrite Nat.add_0_r.
        by apply Hths.
    + intros i c Hc.
      destruct (decide (i < length log)%nat) as [Hlt|Hge].
      * rewrite lookup_app_l in Hc by done.
        rewrite take_app_le by lia. by apply Hlog.
      * pose proof (lookup_lt_Some _ _ _ Hc) as Hi.
        rewrite length_app in Hi. cbn [length] in Hi.
        assert (i = length log) as -> by lia.
        rewrite list_lookup_middle in Hc by done. injection Hc as <-.
        rewrite take_app_length. done.
Qed.

Lemma traced_exec (sched : list nat) (log : list commit) (s : state) :
  exec g deviates sched (init nthreads) = Some (log, s) ->
  traced g deviates nthreads log s.
Proof.
  apply (exec_invariant g deviates (traced g deviates nthreads)).
  - apply traced_init.
  - intros. by eapply traced_step.
Qed.

End Trace.

(** X13.  In every run the [j]-th batch a thread commits holds the sums of
    deviates [j * nbatch] to [(j+1) * nbatch - 1] of that thread's own
    generator, added from zero, and a thread's generator has advanced by
    exactly the batches it has run: no deviate is skipped or used twice. *)
Theorem batches_are_blocks_of_deviates (g : globals)
    (deviates : nat -> nat -> float) (nthreads : nat) (sched : list nat)
    (log : list commit) (s : state) :
  exec g deviates sched (init nthreads) = Some (log, s) ->
  (forall i c,
      log !! i = Some c ->
      c.2 = (trials (deviates c.1) (Z.to_nat (nbatch g)) 0 0
               (batches_run (take i log) c.1 * Z.to_nat (nbatch g))).1)
  /\ forall tid th,
       threads s !! tid = Some th -> pc th <> AtStart ->
       drawn th
       = ((batches_run log tid
           + match pc th with AtMerge => 1 | _ => 0 end)
          * Z.to_nat (nbatch g))%nat.
Proof.
  intros Hexec. apply traced_exec in Hexec as [_ Hths Hlog].
  split; [exact Hlog|].
  intros tid th Hth Hpc. specialize (Hths _ _ Hth).
  unfold thread_traced in Hths.
  destruct (pc th); [done| | |].
  - destruct Hths as [_ ->]. lia.
  - destruct Hths as (_ & -> & _). lia.
  - destruct Hths as (_ & _ & ->). lia.
Qed.

(** X13 for the run of one thread on deviates of one half. *)
Lemma batches_are_blocks_of_deviates_witness :
  exec halves_globals halves [0; 0; 0]%nat (init 1)
  = Some (halves_log, halves_final)
  /\ forall i c,
       halves_log !! i = Some c ->
       c.2 = (trials (halves c.1) (Z.to_nat (nbatch halves_globals)) 0 0
                (batches_run (take i halves_log) c.1
                 * Z.to_nat (nbatch halves_globals))).1.
Proof.
  destruct (batches_are_blocks_of_deviates halves_globals halves 1
              [0; 0; 0]%nat halves_log halves_final eq_refl) as [H _].
  exact (conj eq_refl H).
Defined.

(** X14.  In every run a thread that has left its loop has its flag set and
    has merged at least one batch; a thread inside its loop has its flag
    unset; a thread before its first lines has merged nothing. *)
Theorem exited_threads_contributed (g : globals)
    (deviates : nat -> nat -> float) (nthreads : nat) (sched : list nat)
    (log : list commit) (s : state) (tid : nat) (th : thread) :
  exec g deviates sched (init nthreads) = Some (log, s) ->
  threads s !! tid = Some th ->
  (pc th = AtStart -> batches_run log tid = 0%nat)
  /\ (pc th = AtBatch \/ pc th = AtMerge -> done_flag th = false)
  /\ (pc th = Exited ->
      done_flag th = true /\ (1 <= batches_run log tid)%nat).
Proof.
  intros Hexec Hth. apply traced_exec in Hexec as [_ Hths _].
  specialize (Hths _ _ Hth). unfold thread_traced in Hths.
  destruct (pc th); repeat split; try done; try tauto.
  all: intros [|]; try done; tauto.
Qed.

(** X14 for the thread that drew halves. *)
Lemma exited_threads_contributed_witness :
  exec halves_globals halves [0; 0; 0]%nat (init 1)
  = Some (halves_log, halves_final)
  /\ (1 <= batches_run halves_log 0)%nat.
Proof.
  destruct (exited_threads_contributed halves_globals halves 1
              [0; 0; 0]%nat halves_log halves_final 0
              {| pc := Exited; done_flag := true; sum_X := 2.5;
                 sum_X2 := 1.25; drawn := 5 |} eq_refl eq_refl)
    as (_ & _ & H).
  destruct (H eq_refl) as [_ H1].
  exact (conj eq_refl H1).
Defined.

(** ** The count of trials *)

Lemma all_exited_lookup (s : state) (tid : nat) (th : thread) :
  all_exited s = true -> threads s !! tid = Some th -> pc th = Exited.
Proof.
  unfold all_exited. revert tid.
  induction (threads s) as [|x l IH]; intros [|tid]; cbn; try done.
  - intros [Hx _]%andb_true_iff [= <-]. unfold exited in Hx.
    by destruct (pc x).
  - intros [_ Hl]%andb_true_iff. by apply IH.
Qed.

Lemma sum_list_with_seq_ge (f : nat -> nat) (n : nat) :
  (forall i, (i < n)%nat -> (1 <= f i)%nat) ->
  (n <= sum_list_with f (seq 0 n))%nat.
Proof.
  induction n as [|n IH]; intros Hf; [done|].
  rewrite seq_S, sum_list_with_app. cbn.
  specialize (Hf n ltac:(lia)) as Hn.
  assert (n <= sum_list_with f (seq 0 n))%nat
    by (apply IH; intros; apply Hf; lia).
  lia.
Qed.

(** X15.  When [main] returns, the count it reports is a multiple of the
    batch size and at least one batch per thread; with a team of at least
    one thread it is positive, so the mean and the error it reports are
    not quotients by zero. *)
Theorem returned_count_at_least_one_batch_each (rets : list getopt_ret)
    (nonoption_left : bool) (nthreads : nat)
    (deviates : nat -> nat -> float) (sched : list nat) (r : report) :
  main rets nonoption_left nthreads deviates sched = Returned r ->
  exists g,
    process_args initial_globals rets nonoption_left = Proceed g
    /\ Z.of_nat nthreads * nbatch g <= ntrials_total r
    /\ (nbatch g | ntrials_total r)
    /\ ((1 <= nthreads)%nat -> 1 <= ntrials_total r).
Proof.
  unfold main.
  destruct (process_args _ _ _) as [|g] eqn:Hargs; [done|].
  destruct (exec _ _ _ _) as [[log s]|] eqn:Hexec; [|done].
  destruct (all_exited s) eqn:Hall; [|done]. intros [= <-]. cbn.
  exists g. split; [done|].
  apply process_args_valid in Hargs as [_ Hb].
  pose proof (accounted_exec _ _ _ _ _ _ Hexec)
    as [Hteam _ _ Htids Hn _ _].
  pose proof (batches_run_total _ _ Htids) as Htotal.
  assert (Hge : (nthreads <= length log)%nat).
  { rewrite <- Htotal. apply sum_list_with_seq_ge. intros i Hi.
    destruct (lookup_lt_is_Some_2 (threads s) i) as [th Hth]; [lia|].
    pose proof (all_exited_lookup _ _ _ Hall Hth) as Hpc.
    pose proof (traced_exec _ _ _ _ _ _ Hexec) as [_ Hths _].
    specialize (Hths _ _ Hth). unfold thread_traced in Hths.
    rewrite Hpc in Hths. tauto. }
  rewrite Hn. split; [nia|]. split; [by exists (Z.of_nat (length log))|].
  intros H1. nia.
Qed.

(** X15 for the run of one thread on deviates of one half. *)
Lemma returned_count_at_least_one_batch_each_witness :
  main halves_args false 1 halves [0; 0; 0]%nat = Returned halves_report
  /\ exists g,
       process_args initial_globals halves_args false = Proceed g
       /\ Z.of_nat 1 * nbatch g <= ntrials_total halves_report
       /\ (nbatch g | ntrials_total halves_report)
       /\ ((1 <= 1)%nat -> 1 <= ntrials_total halves_report).
Proof.
  exact (conj eq_refl
           (returned_count_at_least_one_batch_each halves_args false 1
              halves [0; 0; 0]%nat halves_report eq_refl)).
Defined.

(** X16.  With a batch size of at least one and a cap of at least one and
    below [2^53], the count never passes the cap by more than one batch
    per thread, and by less than that while a thread is still in its
    loop. *)
Theorem overshoot_is_bounded (g : globals) (deviates : nat -> nat -> float)
    (nthreads : nat) (sched : list nat) (log : list commit) (s : state) :
  1 <= nbatch g -> 1 <= maxtrials g < 2 ^ 53 ->
  exec g deviates sched (init nthreads) = Some (log, s) ->
  all_ntrials (sh s) <= maxtrials g + Z.of_nat nthreads * nbatch g
  /\ (all_exited s = false ->
      all_ntrials (sh s)
      <= maxtrials g + (Z.of_nat nthreads - 1) * nbatch g).
Proof.
  intros Hb Hm Hexec.
  pose proof (capped_exec g deviates nthreads Hb Hm _ _ _ Hexec)
    as [[Hteam _ _ _ _ _ _] Hcap _].
  split.
  - pose proof (exited_count_le nthreads s) as Hle. rewrite Hteam in Hle. nia.
  - intros Hall. apply all_exited_false in Hall as (tid & th & Hth & Eth).
    pose proof (sum_list_with_bool_lt exited _ _ _ Hth Eth) as Hlt.
    fold (exited_count s) in Hlt. rewrite Hteam in Hlt. nia.
Qed.

(** X16 for three threads after two merges. *)
Lemma overshoot_is_bounded_witness :
  1 <= nbatch trio_globals
  /\ 1 <= maxtrials trio_globals < 2 ^ 53
  /\ exec trio_globals trio trio_schedule (init 3)
     = Some ([(0%nat, (0.5, 0.25)%float); (1%nat, (1, 1)%float)],
             trio_before_third_merge)
  /\ all_ntrials (sh trio_before_third_merge)
     <= maxtrials trio_globals + Z.of_nat 3 * nbatch trio_globals.
Proof.
  assert (H1 : 1 <= nbatch trio_globals) by (cbn; lia).
  assert (H2 : 1 <= maxtrials trio_globals < 2 ^ 53) by (cbn; lia).
  destruct (overshoot_is_bounded trio_globals trio 3 trio_schedule _
              trio_before_third_merge H1 H2 eq_refl) as [H _].
  exact (conj H1 (conj H2 (conj eq_refl H))).
Defined.

(** ** A team of one thread *)

(** The sequential loop keeps [tnbatch] and counts [nbatch] trials a
    batch. *)
Lemma sequential_tnbatch (g : globals) (draw : nat -> float) (k : nat) :
  tnbatch (sequential g draw k) = Some (nbatch g).
Proof. induction k as [|k IH]; [done|]. cbn. exact IH. Qed.

Lemma sequential_ntrials (g : globals) (draw : nat -> float) (k : nat) :
  all_ntrials (sequential g draw k) = Z.of_nat k * nbatch g.
Proof. induction k as [|k IH]; [done|]. cbn [sequential all_ntrials]. lia. Qed.

(** Before the first merge the test fails: the count is zero. *)
Lemma oracle_before_first_merge (g : globals) (a : shared) :
  0 <= maxtrials g <= LONG_MAX -> all_ntrials a = 0 -> oracle g a = false.
Proof.
  intros Hm Hn. unfold oracle. rewrite Hn, is_converged_unfold.
  apply orb_false_iff. split.
  - unfold relative_error_met, variance, mean_of_squares, mean.
    rewrite ltb_spec, !div_spec, sub_spec, !mul_spec, !div_spec.
    change (Prim2SF (of_long 0)) with (S754_zero false).
    destruct (Prim2SF (all_sum_X a)) as [[]|[]| |[] m e];
      destruct (Prim2SF (all_sum_X2 a)) as [[]|[]| |[] m2 e2]; reflexivity.
  - unfold cap_exceeded. by apply of_long_nonneg.
Qed.

Section OneThread.

Context (g : globals) (deviates : nat -> nat -> float).
Hypothesis cap_is_long : 0 <= maxtrials g <= LONG_MAX.

(** A run of one thread follows the sequential loop from the start, step
    by step: the check before a merge is the check after the merge before,
    which failed, or the check on a count of zero. *)
Lemma sequenced_init : sequenced g (deviates 0%nat) [] [] (init 1).
Proof.
  split; [done|]. split; [done|]. split; [intros j Hj; cbn in Hj; lia|].
  exists fresh_thread. done.
Qed.

Lemma sequenced_step (sched : list nat) (log : list commit) (s s' : state)
    (tid : nat) :
  sequenced g (deviates 0%nat) sched log s ->
  step g deviates s tid = Some s' ->
  sequenced g (deviates 0%nat) (sched ++ [tid]) (log ++ committed s tid) s'.
Proof.
  intros (Hsched & Hfit & Hbefore & th & Hteam & Hth) Hstep.
  apply step_Some in Hstep as (th0 & th' & Hth0 & Hthreads & Hkind).
  rewrite Hteam in Hth0, Hthreads.
  assert (tid = 0%nat) as ->.
  { apply lookup_lt_Some in Hth0. cbn in Hth0. lia. }
  injection Hth0 as <-. cbn in Hthreads.
  unfold committed. rewrite Hteam. cbn [lookup list_lookup].
  assert (Hsched' : Forall (λ tid, tid = 0%nat) (sched ++ [0%nat]))
    by (apply Forall_app; split; [done|by apply Forall_singleton]).
  destruct Hkind as [[Hpc Henter]|[(Hpc & Hsh & Hbatch)|[Hpc Hmerge]]];
    rewrite Hpc in *.
  - (* first lines *)
    destruct Hth as (-> & -> & Hsh). injection Henter as Hsh' Hth'.
    split; [done|]. split; [done|]. split; [intros j Hj; cbn in Hj; lia|].
    exists th'. split; [done|]. rewrite <- Hth'. cbn.
    assert (E : sh s' = sequential g (deviates 0%nat) 0)
      by (rewrite <- Hsh', Hsh; reflexivity).
    repeat split; try done.
    rewrite E. by apply oracle_before_first_merge.
  - (* a batch *)
    destruct Hth as (Hlen & Hseq & Hor & Hflag & Hdrawn).
    apply run_batch_Some in Hbatch as (tn & Etn & Hth').
    rewrite Hseq, sequential_tnbatch in Etn. injection Etn as <-.
    rewrite app_nil_r. split; [done|]. split; [done|]. split; [done|].
    exists th'. split; [done|]. rewrite Hth'. cbn.
    rewrite length_app, Hlen, Hsh, trials_cursor, Hdrawn. cbn [length].
    repeat split; try done; try lia.
    unfold block_sums.
    match goal with
    | |- context [trials ?d ?n ?x ?y ?c] =>
        destruct (trials d n x y c) as [[sx sx2] c']
    end. reflexivity.
  - (* a merge *)
    destruct Hth as (Hlen & Hseq & Hor & Hflag & Hdrawn & Hsums).
    apply merge_Some in Hmerge
      as (tn & Etn & Hin & Ha' & Hflag' & Hpc' & _ & _ & Hdrawn').
    rewrite Hseq, sequential_tnbatch in Etn. injection Etn as <-.
    rewrite Hflag, Hor in Hflag'. cbn [orb] in Hflag'.
    assert (E : sh s' = sequential g (deviates 0%nat) (S (length log))).
    { rewrite Ha'. cbn [sequential]. rewrite <- Hsums, Hseq. reflexivity. }
    assert (Hlog : length (log ++ [(0%nat, (sum_X th, sum_X2 th))])
                   = S (length log)) by (rewrite length_app; cbn; lia).
    split; [done|]. split.
    { rewrite Hlog. rewrite Hseq, sequential_ntrials in Hin.
      unfold in_long in Hin. apply andb_true_iff in Hin as [_ Hin].
      apply Z.leb_le in Hin. lia. }
    split.
    { intros j Hj. rewrite Hlog in Hj.
      destruct (decide (j = length log)) as [->|Hne].
      - by rewrite <- Hseq.
      - apply Hbefore. lia. }
    exists th'. split; [done|]. rewrite Hpc', Hlog, length_app, Hlen.
    cbn [length]. rewrite <- E in *.
    destruct (done_flag th') eqn:Hdone.
    + repeat split; try done; lia.
    + repeat split; try done; lia.
Qed.

Lemma sequenced_exec (sched : list nat) (log : list commit) (s : state) :
  exec g deviates sched (init 1) = Some (log, s) ->
  sequenced g (deviates 0%nat) sched log s.
Proof.
  revert log s. induction sched as [|tid sched IH] using rev_ind;
    intros log s.
  - intros [= <- <-]. apply sequenced_init.
  - intros H. apply exec_snoc in H as (log1 & s1 & H1 & Hs & ->).
    eapply sequenced_step; eauto.
Qed.

End OneThread.

(** A schedule that names thread 0 only is given by its length. *)
Lemma all_zero_replicate (l : list nat) :
  Forall (λ tid, tid = 0%nat) l -> l = replicate (length l) 0%nat.
Proof.
  induction 1 as [|x l -> _ IH]; [done|]. cbn. by rewrite <- IH.
Qed.

Section OneThreadRuns.

Context (g : globals) (deviates : nat -> nat -> float).
Hypothesis cap_is_long : 0 <= maxtrials g <= LONG_MAX.
Hypothesis batch_positive : 1 <= nbatch g.

(** While no earlier total passes the test and the count fits in a [long],
    the thread has its next step. *)
Lemma sequential_run (k m : nat) :
  Z.of_nat k * nbatch g <= LONG_MAX ->
  (forall j, (j < k)%nat ->
             oracle g (sequential g (deviates 0%nat) j) = false) ->
  (m <= 2 * k + 1)%nat ->
  exists log s, exec g deviates (replicate m 0%nat) (init 1) = Some (log, s).
Proof.
  intros Hfit Hbefore. induction m as [|m IH]; intros Hm; [by eauto|].
  destruct IH as (log & s & Hexec); [lia|].
  rewrite replicate_S_end, exec_app, Hexec. cbn.
  pose proof (sequenced_exec g deviates cap_is_long _ _ _ Hexec)
    as (_ & _ & _ & th & Hteam & Hth).
  rewrite length_replicate in Hth.
  assert (Hstep : exists s', step g deviates s 0 = Some s').
  { unfold step. rewrite Hteam. cbn. destruct (pc th) eqn:Hpc.
    - by eauto.
    - destruct Hth as (_ & Hseq & _). unfold run_batch.
      rewrite Hseq, sequential_tnbatch. cbn.
      destruct (trials _ _ _ _ _) as [[sx sx2] c]. by eauto.
    - destruct Hth as (Hlen & Hseq & _). unfold merge.
      rewrite Hseq, sequential_tnbatch. cbn.
      rewrite sequential_ntrials.
      replace (in_long _) with true; [by eauto|].
      symmetry. unfold in_long. apply andb_true_iff.
      rewrite !Z.leb_le. unfold LONG_MIN. nia.
    - destruct Hth as (Hlen & Hk & Hseq & Hor).
      rewrite Hseq, Hbefore in Hor by lia. done. }
  destruct Hstep as [s' ->]. cbn. by eauto.
Qed.

End OneThreadRuns.

(** X18.  With a team of one thread the program is the sequential loop:
    [main] returns, on the schedule that gives the thread its first lines
    and then [k] times a batch and a merge, exactly when [k >= 1] is the
    first number of batches whose totals pass the test (and [k * nbatch]
    fits in a [long]), and it reports those totals.  The check before the
    merge never holds with one thread. *)
Theorem single_thread_is_sequential (rets : list getopt_ret)
    (nonoption_left : bool) (g : globals) (deviates : nat -> nat -> float)
    (sched : list nat) (r : report) :
  process_args initial_globals rets nonoption_left = Proceed g ->
  maxtrials g <= LONG_MAX ->
  main rets nonoption_left 1 deviates sched = Returned r <->
  exists k : nat,
    (1 <= k)%nat
    /\ Z.of_nat k * nbatch g <= LONG_MAX
    /\ sched = replicate (2 * k + 1) 0%nat
    /\ r = summarize (sequential g (deviates 0%nat) k)
    /\ oracle g (sequential g (deviates 0%nat) k) = true
    /\ forall j, (j < k)%nat ->
                 oracle g (sequential g (deviates 0%nat) j) = false.
Proof.
  intros Hargs Hmax. unfold main. rewrite Hargs.
  apply process_args_valid in Hargs as [Hcap Hbatch].
  assert (Hlong : 0 <= maxtrials g <= LONG_MAX) by lia.
  split.
  - destruct (exec _ _ _ _) as [[log s]|] eqn:Hexec; [|done].
    destruct (all_exited s) eqn:Hall; [|done]. intros [= <-].
    pose proof (sequenced_exec g deviates Hlong _ _ _ Hexec)
      as (Hsched & Hfit & Hbefore & th & Hteam & Hth).
    assert (Hpc : pc th = Exited).
    { apply (all_exited_lookup s 0 th Hall). by rewrite Hteam. }
    rewrite Hpc in Hth. destruct Hth as (Hlen & Hk & Hseq & Hor).
    exists (length log). rewrite <- Hseq, <- Hlen.
    repeat split; try done.
    by apply all_zero_replicate.
  - intros (k & Hk & Hfit & -> & -> & Hor & Hbefore).
    destruct (sequential_run g deviates Hlong Hbatch k (2 * k + 1) Hfit
                Hbefore ltac:(lia)) as (log & s & Hexec).
    rewrite Hexec.
    pose proof (sequenced_exec g deviates Hlong _ _ _ Hexec)
      as (_ & _ & Hbefore' & th & Hteam & Hth).
    rewrite length_replicate in Hth.
    destruct (pc th) eqn:Hpc.
    + destruct Hth as (Hnil & _). apply (f_equal length) in Hnil.
      rewrite length_replicate in Hnil. cbn in Hnil. lia.
    + destruct Hth as (Hlen & Hseq & Hor' & _).
      assert (length log = k) as <- by lia.
      rewrite Hseq in Hor'. congruence.
    + destruct Hth as (Hlen & _). lia.
    + destruct Hth as (Hlen & _ & Hseq & _).
      assert (length log = k) as <- by lia.
      unfold all_exited. rewrite Hteam. cbn. unfold exited. rewrite Hpc. cbn.
      by rewrite Hseq.
Qed.

(** X18 for the run of one thread on deviates of one half: one batch. *)
Lemma single_thread_is_sequential_witness :
  process_args initial_globals halves_args false = Proceed halves_globals
  /\ maxtrials halves_globals <= LONG_MAX
  /\ main halves_args false 1 halves [0; 0; 0]%nat = Returned halves_report
  /\ exists k : nat,
       (1 <= k)%nat
       /\ Z.of_nat k * nbatch halves_globals <= LONG_MAX
       /\ [0; 0; 0]%nat = replicate (2 * k + 1) 0%nat
       /\ halves_report = summarize (sequential halves_globals (halves 0%nat) k)
       /\ oracle halves_globals (sequential halves_globals (halves 0%nat) k)
          = true
       /\ forall j, (j < k)%nat ->
                    oracle halves_globals
                      (sequential halves_globals (halves 0%nat) j) = false.
Proof.
  assert (H : maxtrials halves_globals <= LONG_MAX)
    by (cbn; unfold LONG_MAX; lia).
  exact (conj eq_refl (conj H (conj eq_refl
           (proj1 (single_thread_is_sequential halves_args false
                     halves_globals halves [0; 0; 0]%nat halves_report
                     eq_refl H) eq_refl)))).
Defined.
